(** * Token swap form (problem2/src/App.jsx): amount synchronisation and validation

    A shallow embedding of the swap form of [App.jsx]: the JavaScript
    built-ins the component relies on ([parseFloat], [Number.prototype.toFixed],
    [String.prototype.replace/split/join]), the zod schema of the "from"
    amount, the token table, and the component itself as a state machine
    whose transitions are the event handlers followed by React's effect loop.

    JavaScript numbers are IEEE 754 binary64 values; they are modelled by
    Rocq's primitive floats, whose operations are the same binary64
    operations, rounded to nearest, ties to even.  Texts are modelled by
    [string]; every character outside ASCII is, like any other character that
    is neither a digit nor a dot, removed by the cleaning step before a text
    is stored. *)

From Stdlib Require Import QArith Qpower Qabs Lqa.
From Stdlib Require Import ZArith List String Ascii Bool Lia Floats Permutation.
From Stdlib Require Import DecimalString.
Import ListNotations.

Local Open Scope string_scope.
Local Open Scope Z_scope.

(** ** JavaScript built-ins *)

Module JS.

(** *** Code units and digit strings *)

Definition is_digit (c : ascii) : bool :=
  let n := nat_of_ascii c in ((48 <=? n)%nat && (n <=? 57)%nat)%bool.

Definition digit_val (c : ascii) : Z := Z.of_nat (nat_of_ascii c) - 48.

(** WhiteSpace and LineTerminator code units of the ASCII range. *)
Definition is_space (c : ascii) : bool :=
  let n := nat_of_ascii c in
  ((n =? 9)%nat || (n =? 10)%nat || (n =? 11)%nat || (n =? 12)%nat
   || (n =? 13)%nat || (n =? 32)%nat)%bool.

Fixpoint trimStart (s : string) : string :=
  match s with
  | String c r => if is_space c then trimStart r else s
  | EmptyString => s
  end.

Fixpoint all_chars (p : ascii -> bool) (s : string) : bool :=
  match s with
  | EmptyString => true
  | String c r => (p c && all_chars p r)%bool
  end.

Fixpoint count_char (c : ascii) (s : string) : nat :=
  match s with
  | EmptyString => 0%nat
  | String d r => ((if Ascii.eqb d c then 1 else 0) + count_char c r)%nat
  end.

(** [s.replace(/[^...]/g, "")] with the kept class given as a predicate. *)
Fixpoint keep_chars (p : ascii -> bool) (s : string) : string :=
  match s with
  | EmptyString => EmptyString
  | String c r => if p c then String c (keep_chars p r) else keep_chars p r
  end.

(** [s.split(sep)] for a separator of one code unit; never the empty list. *)
Fixpoint split (sep : ascii) (s : string) : list string :=
  match s with
  | EmptyString => [EmptyString]
  | String c r =>
      if Ascii.eqb c sep then EmptyString :: split sep r
      else match split sep r with
           | p :: ps => String c p :: ps
           | [] => [String c EmptyString]
           end
  end.

(** [parts.join("")]. *)
Definition join (parts : list string) : string := String.concat "" parts.

(** Longest prefix of decimal digits, and what follows it. *)
Fixpoint span_digits (s : string) : string * string :=
  match s with
  | String c r =>
      if is_digit c then let '(d, rest) := span_digits r in (String c d, rest)
      else (EmptyString, s)
  | EmptyString => (EmptyString, EmptyString)
  end.

(** The mathematical value of a string of decimal digits. *)
Fixpoint digits_value (acc : Z) (s : string) : Z :=
  match s with
  | EmptyString => acc
  | String c r => digits_value (10 * acc + digit_val c) r
  end.

(** The decimal digits of a natural number, without leading zeros ("0" for 0). *)
Definition digits_of (n : Z) : string := NilZero.string_of_uint (N.to_uint (Z.to_N n)).

Fixpoint zeros (n : nat) : string :=
  match n with O => EmptyString | S k => String "0" (zeros k) end.

(** *** Numbers *)

(** The binary64 value nearest to [num / den] (ties to even), for positive
    [num] and [den], with the sign [neg]: the quotient is taken with enough
    bits and the position of the remainder, then rounded once. *)
Definition round_ratio (neg : bool) (num den : Z) : spec_float :=
  let '(q, e, l) := SFdiv_core_binary prec emax num 0 den 0 in
  binary_round_aux prec emax neg q e l.

(** The Number value of [m * 10 ^ e10], for [0 <= m]. *)
Definition of_decimal (neg : bool) (m e10 : Z) : float :=
  if m =? 0 then (if neg then neg_zero else zero)
  else SF2Prim (if 0 <=? e10 then round_ratio neg (m * 10 ^ e10) 1
                else round_ratio neg m (10 ^ (- e10))).

(** The exact value of a finite nonzero float [m * 2 ^ e] as a fraction. *)
Definition fraction_of (m : positive) (e : Z) : Z * Z :=
  if 0 <=? e then (Zpos m * 2 ^ e, 1) else (Zpos m, 2 ^ (- e)).

(** Truthiness of a Number: every value except [0], [-0] and [NaN]. *)
Definition truthy (x : float) : bool :=
  negb (PrimFloat.is_nan x || PrimFloat.is_zero x).

Definition isNaN (x : float) : bool := PrimFloat.is_nan x.

(** *** parseFloat *)

Definition starts_with (p s : string) : bool := String.prefix p s.

(** An ExponentPart at the head of [s]: [e] or [E], an optional sign and at
    least one digit; its value, or 0 when [s] does not start with one (the
    longest prefix that is a literal then stops before it). *)
Definition exponent_part (s : string) : Z :=
  match s with
  | String c r =>
      if (Ascii.eqb c "e" || Ascii.eqb c "E")%bool then
        let '(neg, r') :=
          match r with
          | String "-" t => (true, t)
          | String "+" t => (false, t)
          | _ => (false, r)
          end in
        let '(d, _) := span_digits r' in
        match d with
        | EmptyString => 0
        | _ => if neg then - digits_value 0 d else digits_value 0 d
        end
      else 0
  | EmptyString => 0
  end.

(** [parseFloat(text)]: leading white space is skipped, the longest prefix
    that is a StrDecimalLiteral is read, and its value is rounded to the
    nearest Number; [NaN] when there is no such prefix. *)
Definition parseFloat (text : string) : float :=
  let s := trimStart text in
  let '(neg, s1) :=
    match s with
    | String "-" t => (true, t)
    | String "+" t => (false, t)
    | _ => (false, s)
    end in
  if starts_with "Infinity" s1 then (if neg then neg_infinity else infinity)
  else
    let '(ip, r1) := span_digits s1 in
    let '(fp, r2) :=
      match r1 with
      | String "." t => span_digits t
      | _ => (EmptyString, r1)
      end in
    match ip, fp with
    | EmptyString, EmptyString => nan
    | _, _ =>
        of_decimal neg (digits_value 0 (ip ++ fp))
                   (exponent_part r2 - Z.of_nat (String.length fp))
    end.

(** *** Number::toString (radix 10) *)

(** Is [num / den < 10 ^ n] ? *)
Definition below_pow10 (num den n : Z) : bool :=
  if 0 <=? n then num <? den * 10 ^ n else num * 10 ^ (- n) <? den.

(** A decimal exponent [lo] with [10 ^ lo <= num / den], from the sizes in
    bits of [num] and [den]: [2 ^ l < num / den] for
    [l = log2 num - log2 den - 1], and [0.30102 < log10 2 < 0.30103]. *)
Definition decimal_exponent_below (num den : Z) : Z :=
  let l := Z.log2 num - Z.log2 den - 1 in
  (if 0 <=? l then l * 30102 else l * 30103) / 100000.

(** The least [n >= lo] with [num / den < 10 ^ n], searched over [fuel] values. *)
Fixpoint decimal_exponent (fuel : nat) (num den lo : Z) : Z :=
  match fuel with
  | O => lo
  | S k => if below_pow10 num den lo then lo else decimal_exponent k num den (lo + 1)
  end.

(** [floor (num / den / 10 ^ p)]. *)
Definition scaled_floor (num den p : Z) : Z :=
  if 0 <=? p then num / (den * 10 ^ p) else (num * 10 ^ (- p)) / den.

(** [| s * 10 ^ p - num / den |], scaled by the common denominator. *)
Definition scaled_dist (num den s p : Z) : Z :=
  if 0 <=? p then Z.abs (s * 10 ^ p * den - num)
  else Z.abs (s * den - num * 10 ^ (- p)).

(** The shortest digits: the least [k] from [k] on (at most [fuel] more) for
    which some [s] of [k] digits has [s * 10 ^ (n - k)] round to [x]; of the
    two candidates around the exact value the nearer one is taken.  Returns
    [(n, k, s)]. *)
Fixpoint shortest_digits (fuel : nat) (x : float) (num den n k : Z) : Z * Z * Z :=
  let p := n - k in
  let s0 := scaled_floor num den p in
  let s1 := s0 + 1 in
  let ok s := PrimFloat.Leibniz.eqb (of_decimal false s p) x in
  let carry s := if s =? 10 ^ k then (n + 1, k, 10 ^ (k - 1)) else (n, k, s) in
  match fuel with
  | O => (n, k, s0)
  | S f =>
      if ok s0 then
        if (ok s1 && (scaled_dist num den s1 p <? scaled_dist num den s0 p))%bool
        then carry s1 else (n, k, s0)
      else if ok s1 then carry s1
      else shortest_digits f x num den n (k + 1)
  end.

Definition exponent_text (e : Z) : string :=
  (if e <? 0 then "e-" else "e+") ++ digits_of (Z.abs e).

(** Steps 6 to 10 of Number::toString for the digits [s] ([k] of them) and
    the decimal exponent [n]. *)
Definition format_digits (n k s : Z) : string :=
  let d := digits_of s in
  if ((k <=? n) && (n <=? 21))%bool then d ++ zeros (Z.to_nat (n - k))
  else if ((0 <? n) && (n <=? 21))%bool then
    substring 0 (Z.to_nat n) d ++ "." ++ substring (Z.to_nat n) (Z.to_nat (k - n)) d
  else if ((-6 <? n) && (n <=? 0))%bool then "0." ++ zeros (Z.to_nat (- n)) ++ d
  else if k =? 1 then d ++ exponent_text (n - 1)
  else substring 0 1 d ++ "." ++ substring 1 (Z.to_nat (k - 1)) d
       ++ exponent_text (n - 1).

Definition toString (x : float) : string :=
  match Prim2SF x with
  | S754_nan => "NaN"
  | S754_zero _ => "0"
  | S754_infinity s => if s then "-Infinity" else "Infinity"
  | S754_finite s m e =>
      let '(num, den) := fraction_of m e in
      let n := decimal_exponent 8 num den (decimal_exponent_below num den) in
      let '(n', k, d) := shortest_digits 17 (abs x) num den n 1 in
      (if s then "-" else "") ++ format_digits n' k d
  end.

(** *** Number.prototype.toFixed *)

(** Steps 11.b and 11.c: the digits of [n] with a dot before the last [f]. *)
Definition fixed_text (n : Z) (f : nat) : string :=
  let m := digits_of n in
  match f with
  | O => m
  | _ =>
      let k := String.length m in
      let m' := if (k <=? f)%nat then zeros (f + 1 - k) ++ m else m in
      let k' := String.length m' in
      substring 0 (k' - f) m' ++ "." ++ substring (k' - f) f m'
  end.

(** [x.toFixed(f)] for [0 <= f <= 100]. *)
Definition toFixed (x : float) (f : nat) : string :=
  match Prim2SF x with
  | S754_nan | S754_infinity _ => toString x
  | S754_zero _ => fixed_text 0 f
  | S754_finite s m e =>
      let '(num, den) := fraction_of m e in
      (if s then "-" else "") ++
      (if 10 ^ 21 * den <=? num then toString (abs x)
       else fixed_text ((2 * num * 10 ^ Z.of_nat f + den) / (2 * den)) f)
  end.

End JS.

(** [s.trim()], over the white space of the ASCII range. *)
Module JSString.

Fixpoint trimEnd (s : string) : string :=
  match s with
  | EmptyString => EmptyString
  | String c r =>
      match trimEnd r with
      | EmptyString => if JS.is_space c then EmptyString else String c EmptyString
      | r' => String c r'
      end
  end.

Definition trim (s : string) : string := trimEnd (JS.trimStart s).

End JSString.

(** ** zod: the part of its parsing pipeline that the schema uses

    A parse carries a status, the current value and the issues raised so
    far.  A string check or a refinement that fails adds its issue and marks
    the parse dirty; it is run whatever the status.  A transform and the
    second half of a pipe are run on a valid parse only.  The input is always
    a string, so no parse is aborted. *)

Module Zod.

Inductive status := Valid | Dirty.

Record parsed := { status_of : status; value_of : string; issues_of : list string }.

Definition string_ (data : string) : parsed :=
  {| status_of := Valid; value_of := data; issues_of := [] |}.

Definition refine (check : string -> bool) (message : string) (p : parsed) : parsed :=
  if check (value_of p) then p
  else {| status_of := Dirty; value_of := value_of p;
          issues_of := issues_of p ++ [message] |}.

Definition nonempty (message : string) (p : parsed) : parsed :=
  refine (fun val => negb (String.length val =? 0)%nat) message p.

Definition transform (f : string -> string) (p : parsed) : parsed :=
  match status_of p with
  | Valid => {| status_of := Valid; value_of := f (value_of p); issues_of := issues_of p |}
  | Dirty => p
  end.

Definition pipe (out : parsed -> parsed) (p : parsed) : parsed :=
  match status_of p with
  | Valid => out p
  | Dirty => p
  end.

End Zod.

(** ** The module-level constants and functions of App.jsx *)

(** [SLIPPAGE_RATE = 0.003]: the binary64 value nearest to 0.003. *)
Definition SLIPPAGE_RATE : float := 0x1.89374bc6a7efap-9%float.
Definition MAX_BALANCE : float := 1000%float.

(** The cleaning of an amount text, written twice in the source with the same
    body: the transform of the schema (lines 38-44) and [handleInputChange]
    (lines 261-265). *)
Definition allowed (c : ascii) : bool := (JS.is_digit c || Ascii.eqb c ".")%bool.

Definition cleanValue (val : string) : string :=
  let cleaned := JS.keep_chars allowed val in
  let parts := JS.split "." cleaned in
  if (2 <? List.length parts)%nat
  then nth 0 parts "" ++ "." ++ JS.join (skipn 1 parts)
  else cleaned.

(** The four failures of the amount, named as the specification names them,
    and the message the schema attaches to each. *)
Inductive AmountError := EmptyAmount | NotANumber | NonPositive | ExceedsBalance.

Definition message (maxBalance : float) (fromSymbol : string) (e : AmountError) : string :=
  match e with
  | EmptyAmount => "Please enter an amount to swap."
  | NotANumber => "Amount must be a valid number."
  | NonPositive => "Amount must be greater than zero."
  | ExceedsBalance =>
      "Amount must not exceed the balance of " ++ JS.toString maxBalance
      ++ " " ++ fromSymbol ++ "."
  end.

(** [createSwapSchema(maxBalance, fromSymbol)], the [fromAmount] member,
    applied to the text [val]. *)
Definition createSwapSchema (maxBalance : float) (fromSymbol : string) (val : string)
  : Zod.parsed :=
  let msg := message maxBalance fromSymbol in
  Zod.refine (fun val => PrimFloat.leb (JS.parseFloat val) maxBalance) (msg ExceedsBalance)
    (Zod.refine (fun val => PrimFloat.ltb 0 (JS.parseFloat val)) (msg NonPositive)
      (Zod.refine (fun val => negb (JS.isNaN (JS.parseFloat val))) (msg NotANumber)
        (Zod.pipe
           (Zod.refine (fun val => negb (JSString.trim val =? "")%string) (msg EmptyAmount))
           (Zod.transform cleanValue
              (Zod.nonempty (msg EmptyAmount) (Zod.string_ val)))))).

(** What the resolver reports for the field: the message of the first issue
    (react-hook-form keeps one error per field, the first), or the parsed
    value when there is none. *)
Definition resolve (p : Zod.parsed) : string + string :=
  match Zod.issues_of p with
  | [] => inl (Zod.value_of p)
  | m :: _ => inr m
  end.

(** *** Tokens *)

Record RawItem := { currency : string; price : option float }.

Record Token := {
  symbol : string;
  name : string;
  priceUsd : option float;   (* [None]: the item has no price (undefined) *)
  iconUrl : string
}.

(** A JavaScript object used as a map, in its own property order: the keys
    that are array indices first, in ascending order, then the other keys in
    the order they were created. *)
Definition array_index (k : string) : option Z :=
  match k with
  | EmptyString => None
  | String c r =>
      if (JS.all_chars JS.is_digit k
          && (negb (Ascii.eqb c "0") || (String.length r =? 0)%nat))%bool
      then let v := JS.digits_value 0 k in
           if v <? 2 ^ 32 - 1 then Some v else None
      else None
  end.

Fixpoint has_key {A} (k : string) (o : list (string * A)) : bool :=
  match o with
  | [] => false
  | (k', _) :: r => ((k =? k')%string || has_key k r)%bool
  end.

Fixpoint obj_update {A} (k : string) (v : A) (o : list (string * A)) : list (string * A) :=
  match o with
  | [] => []
  | (k', v') :: r =>
      if (k =? k')%string then (k', v) :: r else (k', v') :: obj_update k v r
  end.

(** Where a new key goes: an array index before the first key that is not
    one or is a larger one; any other key at the end. *)
Fixpoint obj_insert {A} (k : string) (v : A) (o : list (string * A)) : list (string * A) :=
  match o with
  | [] => [(k, v)]
  | (k', v') :: r =>
      match array_index k, array_index k' with
      | Some i, Some j => if i <? j then (k, v) :: o else (k', v') :: obj_insert k v r
      | Some _, None => (k, v) :: o
      | None, _ => (k', v') :: obj_insert k v r
      end
  end.

(** [o[k] = v]. *)
Definition obj_set {A} (k : string) (v : A) (o : list (string * A)) : list (string * A) :=
  if has_key k o then obj_update k v o else obj_insert k v o.

(** [Object.values(o)]. *)
Definition obj_values {A} (o : list (string * A)) : list A := map snd o.

Definition token_eqb (a b : Token) : bool :=
  ((symbol a =? symbol b)%string && (name a =? name b)%string
   && match priceUsd a, priceUsd b with
      | Some x, Some y => PrimFloat.Leibniz.eqb x y
      | None, None => true
      | _, _ => false
      end
   && (iconUrl a =? iconUrl b)%string)%bool.

(** [fromToken.priceUsd && toToken.priceUsd && toToken.priceUsd > 0 ?
    fromToken.priceUsd / toToken.priceUsd : 0] (lines 104-109). *)
Definition exchangeRate (fromToken toToken : Token) : float :=
  match priceUsd fromToken, priceUsd toToken with
  | Some pf, Some pt =>
      if (JS.truthy pf && JS.truthy pt && PrimFloat.ltb 0 pt)%bool
      then (pf / pt)%float else 0%float
  | _, _ => 0%float
  end.

(** [calculateAmount(amount, rate, isReverse)] (lines 112-122).  Its callers
    pass a Number for [amount], which [parseFloat] first turns into its text. *)
Definition calculateAmount (amount rate : float) (isReverse : bool) : float :=
  let numAmount := JS.parseFloat (JS.toString amount) in
  if (JS.isNaN numAmount || PrimFloat.leb numAmount 0 || PrimFloat.leb rate 0)%bool
  then 0%float
  else
    let adjustedRate := (rate * (1 - SLIPPAGE_RATE))%float in
    if isReverse then (numAmount / adjustedRate)%float
    else (numAmount * adjustedRate)%float.

(** ** The component

    The state of [App]: the five [useState] cells, the values and the error
    that react-hook-form holds for the two fields, what React remembers of
    the dependencies of the two effects from the last render, and the timers
    that are pending with the values their callbacks closed over. *)

Inductive Field := FromField | ToField.

Record Form := {
  fromAmount : string;
  toAmount : string;
  errors_fromAmount : option string   (* errors.fromAmount?.message *)
}.

Definition SyncDeps : Type := string * string * float * option Field.

Record State := {
  fromToken : Token;
  toToken : Token;
  isSwapping : bool;
  lastUpdatedField : option Field;
  successMessage : string;
  form : Form;
  sync_deps : option SyncDeps;           (* of the effect of lines 124-173 *)
  token_deps : option (Token * Token);   (* of the effect of lines 176-188 *)
  swap_timers : list (string * string);  (* [watchedToAmount], [toToken.symbol] *)
  alert_timers : nat
}.

Definition watchedFromAmount (s : State) : string := fromAmount (form s).
Definition watchedToAmount (s : State) : string := toAmount (form s).

(** *** Setters *)

Definition with_form (f : Form) (s : State) : State :=
  {| fromToken := fromToken s; toToken := toToken s; isSwapping := isSwapping s;
     lastUpdatedField := lastUpdatedField s; successMessage := successMessage s;
     form := f; sync_deps := sync_deps s; token_deps := token_deps s;
     swap_timers := swap_timers s; alert_timers := alert_timers s |}.

(** [setValue(name, value)]. *)
Definition setValue (fieldName : Field) (value : string) (s : State) : State :=
  with_form
    match fieldName with
    | FromField => {| fromAmount := value; toAmount := toAmount (form s);
                      errors_fromAmount := errors_fromAmount (form s) |}
    | ToField => {| fromAmount := fromAmount (form s); toAmount := value;
                    errors_fromAmount := errors_fromAmount (form s) |}
    end s.

Definition setError (e : option string) (s : State) : State :=
  with_form {| fromAmount := fromAmount (form s); toAmount := toAmount (form s);
               errors_fromAmount := e |} s.

(** [clearErrors("fromAmount")]. *)
Definition clearErrors (s : State) : State := setError None s.

Definition setFromToken (t : Token) (s : State) : State :=
  {| fromToken := t; toToken := toToken s; isSwapping := isSwapping s;
     lastUpdatedField := lastUpdatedField s; successMessage := successMessage s;
     form := form s; sync_deps := sync_deps s; token_deps := token_deps s;
     swap_timers := swap_timers s; alert_timers := alert_timers s |}.

Definition setToToken (t : Token) (s : State) : State :=
  {| fromToken := fromToken s; toToken := t; isSwapping := isSwapping s;
     lastUpdatedField := lastUpdatedField s; successMessage := successMessage s;
     form := form s; sync_deps := sync_deps s; token_deps := token_deps s;
     swap_timers := swap_timers s; alert_timers := alert_timers s |}.

Definition setIsSwapping (b : bool) (s : State) : State :=
  {| fromToken := fromToken s; toToken := toToken s; isSwapping := b;
     lastUpdatedField := lastUpdatedField s; successMessage := successMessage s;
     form := form s; sync_deps := sync_deps s; token_deps := token_deps s;
     swap_timers := swap_timers s; alert_timers := alert_timers s |}.

Definition setLastUpdatedField (f : option Field) (s : State) : State :=
  {| fromToken := fromToken s; toToken := toToken s; isSwapping := isSwapping s;
     lastUpdatedField := f; successMessage := successMessage s;
     form := form s; sync_deps := sync_deps s; token_deps := token_deps s;
     swap_timers := swap_timers s; alert_timers := alert_timers s |}.

Definition setSuccessMessage (m : string) (s : State) : State :=
  {| fromToken := fromToken s; toToken := toToken s; isSwapping := isSwapping s;
     lastUpdatedField := lastUpdatedField s; successMessage := m;
     form := form s; sync_deps := sync_deps s; token_deps := token_deps s;
     swap_timers := swap_timers s; alert_timers := alert_timers s |}.

Definition with_deps (d1 : option SyncDeps) (d2 : option (Token * Token)) (s : State)
  : State :=
  {| fromToken := fromToken s; toToken := toToken s; isSwapping := isSwapping s;
     lastUpdatedField := lastUpdatedField s; successMessage := successMessage s;
     form := form s; sync_deps := d1; token_deps := d2;
     swap_timers := swap_timers s; alert_timers := alert_timers s |}.

Definition with_timers (sw : list (string * string)) (al : nat) (s : State) : State :=
  {| fromToken := fromToken s; toToken := toToken s; isSwapping := isSwapping s;
     lastUpdatedField := lastUpdatedField s; successMessage := successMessage s;
     form := form s; sync_deps := sync_deps s; token_deps := token_deps s;
     swap_timers := sw; alert_timers := al |}.

(** *** Comparison of dependencies ([Object.is]) *)

Definition field_eqb (a b : Field) : bool :=
  match a, b with
  | FromField, FromField | ToField, ToField => true
  | _, _ => false
  end.

Definition driving_eqb (a b : option Field) : bool :=
  match a, b with
  | Some x, Some y => field_eqb x y
  | None, None => true
  | _, _ => false
  end.

Definition sync_deps_eqb (a b : SyncDeps) : bool :=
  let '(f1, t1, r1, d1) := a in
  let '(f2, t2, r2, d2) := b in
  ((f1 =? f2)%string && (t1 =? t2)%string && PrimFloat.Leibniz.eqb r1 r2
   && driving_eqb d1 d2)%bool.

Definition token_deps_eqb (a b : Token * Token) : bool :=
  (token_eqb (fst a) (fst b) && token_eqb (snd a) (snd b))%bool.

(** An effect runs after the first render, and after a render in which one
    of its dependencies differs from the render before. *)
Definition changed {D} (eqb : D -> D -> bool) (last : option D) (now : D) : bool :=
  match last with
  | None => true
  | Some d => negb (eqb d now)
  end.

Definition sync_deps_of (s : State) : SyncDeps :=
  (watchedFromAmount s, watchedToAmount s,
   exchangeRate (fromToken s) (toToken s), lastUpdatedField s).

Definition token_deps_of (s : State) : Token * Token := (fromToken s, toToken s).

(** Does the effect run after this render? *)
Definition sync_runs (s : State) : bool :=
  changed sync_deps_eqb (sync_deps s) (sync_deps_of s).

Definition token_runs (s : State) : bool :=
  changed token_deps_eqb (token_deps s) (token_deps_of s).

Section App.

(** The two imports whose files are not part of the sources at hand: the
    token table [rawTokenData.json] and the base address of the icons. *)
Variable rawTokenData : list RawItem.
Variable TOKEN_ICONS_URL : string.

Definition processedTokenData : list (string * Token) :=
  fold_left
    (fun acc item =>
       obj_set (currency item)
         {| symbol := currency item;
            name := currency item;
            priceUsd := price item;
            iconUrl := TOKEN_ICONS_URL ++ "/" ++ currency item ++ ".svg" |}
         acc)
    rawTokenData [].

Definition TOKENS : list Token := obj_values processedTokenData.

(** [TOKENS.find((t) => t.symbol === sym) || TOKENS[i]]; [None] is [undefined]. *)
Definition find_or_nth (sym : string) (i : nat) : option Token :=
  match find (fun t => (symbol t =? sym)%string) TOKENS with
  | Some t => Some t
  | None => nth_error TOKENS i
  end.

Definition defaultFromToken : option Token := find_or_nth "ETH" 0.
Definition defaultToToken : option Token := find_or_nth "USDC" 1.

(** *** The two effects

    An effect reads the values of the render it belongs to ([snap]) and
    writes to the state being built ([st]). *)

(** Lines 124-164: the derived field follows the driving one. *)
Definition syncEffect (snap st : State) : State :=
  let exchangeRate := exchangeRate (fromToken snap) (toToken snap) in
  if PrimFloat.leb exchangeRate 0 then
    setValue FromField "" (setValue ToField "" st)
  else
    match lastUpdatedField snap with
    | Some FromField =>
        let inputAmount := JS.parseFloat (watchedFromAmount snap) in
        if (JS.isNaN inputAmount || PrimFloat.leb inputAmount 0)%bool then
          setValue ToField "" st
        else
          let calculatedToAmount := calculateAmount inputAmount exchangeRate false in
          setValue ToField (JS.toFixed calculatedToAmount 8) st
    | Some ToField =>
        let outputAmount := JS.parseFloat (watchedToAmount snap) in
        if (JS.isNaN outputAmount || PrimFloat.leb outputAmount 0)%bool then
          setValue FromField "" st
        else
          let calculatedFromAmount := calculateAmount outputAmount exchangeRate true in
          clearErrors (setValue FromField (JS.toFixed calculatedFromAmount 8) st)
    | None => st
    end.

(** Lines 176-188: no swap of a token with itself; a change of token resets
    the amounts, the error and the driving field. *)
Definition tokenEffect (snap st : State) : State :=
  let st1 :=
    if (symbol (fromToken snap) =? symbol (toToken snap))%string then
      match find (fun t => negb (symbol t =? symbol (fromToken snap))%string) TOKENS with
      | Some newToToken => setToToken newToToken st
      | None => st
      end
    else st in
  setLastUpdatedField None
    (clearErrors (setValue ToField "" (setValue FromField "" st1))).

(** One render and the effects that follow it, in the order of the source. *)
Definition render (s : State) : State :=
  let s1 := if changed sync_deps_eqb (sync_deps s) (sync_deps_of s)
            then syncEffect s s else s in
  let s2 := if changed token_deps_eqb (token_deps s) (token_deps_of s)
            then tokenEffect s s1 else s1 in
  with_deps (Some (sync_deps_of s)) (Some (token_deps_of s)) s2.

(** React renders again for as long as an effect changes the state; three
    renders always reach the state that no render changes ([render_settle]). *)
Definition settle (s : State) : State := render (render (render s)).

(** *** Handlers *)

Definition handleSetFromToken (token : Token) (s : State) : State := setFromToken token s.
Definition handleSetToToken (token : Token) (s : State) : State := setToToken token s.

(** Lines 200-212. *)
Definition handleSwapTokens (s : State) : State :=
  let newFromToken := toToken s in
  let newToToken := fromToken s in
  let tempAmount := watchedFromAmount s in
  clearErrors
    (setLastUpdatedField (Some FromField)
       (setValue ToField tempAmount
          (setValue FromField (watchedToAmount s)
             (setToToken newToToken (setFromToken newFromToken s))))).

(** The resolver run on the "from" field, its error stored or removed. *)
Definition validateFromAmount (s : State) : State :=
  match resolve (createSwapSchema MAX_BALANCE (symbol (fromToken s)) (watchedFromAmount s)) with
  | inl _ => setError None s
  | inr m => setError (Some m) s
  end.

(** Lines 260-271; [value] is [e.target.value]. *)
Definition handleInputChange (value : string) (fieldName : Field) (s : State) : State :=
  let cleanValue := cleanValue value in
  let s1 := setValue fieldName cleanValue s in
  let s2 := match fieldName with
            | FromField => validateFromAmount s1   (* shouldValidate *)
            | ToField => s1
            end in
  setLastUpdatedField (Some fieldName) s2.

(** Lines 214-217. *)
Definition alertSuccess (message : string) (s : State) : State :=
  with_timers (swap_timers s) (S (alert_timers s)) (setSuccessMessage message s).

(** Lines 220-257, up to the call of [setTimeout]. *)
Definition onSubmit (s : State) : State :=
  if (symbol (fromToken s) =? symbol (toToken s))%string then s
  else if PrimFloat.leb (exchangeRate (fromToken s) (toToken s)) 0 then s
  else
    with_timers (swap_timers s ++ [(watchedToAmount s, symbol (toToken s))])
      (alert_timers s) (setIsSwapping true s).

(** Lines 244-256: the callback of the timer, with the values it closed over. *)
Definition swapCompleted (closure : string * string) (s : State) : State :=
  let '(watchedToAmount, toSymbol) := closure in
  clearErrors
    (setLastUpdatedField None
       (setValue ToField ""
          (setValue FromField ""
             (alertSuccess
                ("Swap successful! You received "
                 ++ JS.toFixed (JS.parseFloat watchedToAmount) 4 ++ " " ++ toSymbol)
                (setIsSwapping false s))))).

(** [handleSubmit(onSubmit)]: the resolver runs first; with an error the
    error is stored and [onSubmit] is not called. *)
Definition handleSubmit (s : State) : State :=
  match resolve (createSwapSchema MAX_BALANCE (symbol (fromToken s)) (watchedFromAmount s)) with
  | inl _ => onSubmit (setError None s)
  | inr m => setError (Some m) s
  end.

(** *** What the markup derives from the state *)

Definition rateError (s : State) : bool :=
  PrimFloat.leb (exchangeRate (fromToken s) (toToken s)) 0.

Definition generalError (s : State) : string :=
  if rateError s then "Cannot calculate exchange rate for this token pair."
  else match errors_fromAmount (form s) with
       | Some m => m
       | None => ""
       end.

(** The [disabled] attribute of the submit button (lines 410-416). *)
Definition submitDisabled (s : State) : bool :=
  (isSwapping s
   || (String.length (watchedFromAmount s) =? 0)%nat
   || PrimFloat.leb (JS.parseFloat (watchedFromAmount s)) 0
   || negb (String.length (generalError s) =? 0)%nat
   || rateError s)%bool.

(** The [disabled] attribute of the "to" input (line 357). *)
Definition toInputDisabled (s : State) : bool := isSwapping s.

(** *** Events *)

Inductive Event :=
| EditFrom (text : string)     (* a change of the "from" input *)
| EditTo (text : string)       (* a change of the "to" input *)
| SelectFrom (token : Token)   (* the "from" picker calls [onSelect] *)
| SelectTo (token : Token)     (* the "to" picker calls [onSelect] *)
| SwapDirection                (* a click on the reverse button *)
| Submit                       (* the form is submitted *)
| SwapTimer                    (* the timer of [onSubmit] fires *)
| AlertTimer.                  (* the timer of [alertSuccess] fires *)

(** A disabled control raises no event: the "to" input while a swap is in
    flight, and the form while its submit button is disabled. *)
Definition dispatch (e : Event) (s : State) : State :=
  match e with
  | EditFrom text => handleInputChange text FromField s
  | EditTo text => if toInputDisabled s then s else handleInputChange text ToField s
  | SelectFrom token => handleSetFromToken token s
  | SelectTo token => handleSetToToken token s
  | SwapDirection => handleSwapTokens s
  | Submit => if submitDisabled s then s else handleSubmit s
  | SwapTimer =>
      match swap_timers s with
      | closure :: rest =>
          swapCompleted closure (with_timers rest (alert_timers s) s)
      | [] => s
      end
  | AlertTimer =>
      match alert_timers s with
      | S n => with_timers (swap_timers s) n (setSuccessMessage "" s)
      | O => s
      end
  end.

Definition step (s : State) (e : Event) : State := settle (dispatch e s).

Definition run (s : State) (es : list Event) : State := fold_left step es s.

(** The first render; [None] when a default token is [undefined] (the
    component then throws on [fromToken.symbol]). *)
Definition mount : option State :=
  match defaultFromToken, defaultToToken with
  | Some f, Some t =>
      Some (settle
              {| fromToken := f; toToken := t; isSwapping := false;
                 lastUpdatedField := None; successMessage := "";
                 form := {| fromAmount := ""; toAmount := ""; errors_fromAmount := None |};
                 sync_deps := None; token_deps := None;
                 swap_timers := []; alert_timers := 0 |})
  | _, _ => None
  end.

(** The pickers offer tokens of the table only. *)
Definition valid_event (e : Event) : Prop :=
  match e with
  | SelectFrom t | SelectTo t => In t TOKENS
  | _ => True
  end.

Inductive reachable : State -> Prop :=
| reach_mount : forall s, mount = Some s -> reachable s
| reach_step : forall s e, reachable s -> valid_event e -> reachable (step s e).

(** *** Names for the proofs *)

(** The first token of the table whose symbol is not that of [f]. *)
Definition other_token (f : Token) : option Token :=
  find (fun t => negb (symbol t =? symbol f)%string) TOKENS.

(** The "to" token after the effect of lines 176-188. *)
Definition reassigned (s : State) : Token :=
  if (symbol (fromToken s) =? symbol (toToken s))%string then
    match other_token (fromToken s) with
    | Some t => t
    | None => toToken s
    end
  else toToken s.


End App.

(** ** Specification-side definitions *)

(** The shape of a cleaned amount: digits and dots only, at most one dot. *)
Definition plain (s : string) : bool :=
  (JS.all_chars allowed s && (JS.count_char "." s <=? 1)%nat)%bool.

Definition not_dot (c : ascii) : bool := negb (Ascii.eqb c ".").

(** The first dot kept, every later one dropped: "collapse multiple decimal
    points into one (keep the first, concatenate remaining digit groups)". *)
Fixpoint first_dot_only (s : string) : string :=
  match s with
  | EmptyString => EmptyString
  | String c r =>
      if Ascii.eqb c "." then String c (JS.keep_chars not_dot r)
      else String c (first_dot_only r)
  end.

(** The values that [toFixed] does not write in fixed notation: NaN, the
    infinities, and every value of magnitude [10 ^ 21] or more. *)
Definition beyond_fixed (x : float) : bool :=
  match Prim2SF x with
  | S754_nan | S754_infinity _ => true
  | S754_zero _ => false
  | S754_finite _ m e => let '(num, den) := JS.fraction_of m e in 10 ^ 21 * den <=? num
  end.

(** The texts an amount field can hold. *)
Definition amount_text (t : string) : Prop :=
  t = "" \/ plain t = true
  \/ exists x, beyond_fixed x = true /\ t = JS.toFixed x 8.

(** The outcome of the validator as the specification words it, for the
    cleaned text and its parsed value. *)
Definition validator_outcome (maxBalance : float) (fromSymbol cleaned : string)
  : string + string :=
  let v := JS.parseFloat cleaned in
  if (String.length cleaned =? 0)%nat then inr (message maxBalance fromSymbol EmptyAmount)
  else if JS.isNaN v then inr (message maxBalance fromSymbol NotANumber)
  else if PrimFloat.leb v 0 then inr (message maxBalance fromSymbol NonPositive)
  else if PrimFloat.ltb maxBalance v then inr (message maxBalance fromSymbol ExceedsBalance)
  else inl cleaned.

(** The outcome as the specification words its third step: a text that
    "does not parse as a finite number" fails [NotANumber]. *)
Definition claimed_outcome (maxBalance : float) (fromSymbol cleaned : string)
  : string + string :=
  let v := JS.parseFloat cleaned in
  if (String.length cleaned =? 0)%nat then inr (message maxBalance fromSymbol EmptyAmount)
  else if negb (PrimFloat.is_finite v) then inr (message maxBalance fromSymbol NotANumber)
  else if PrimFloat.leb v 0 then inr (message maxBalance fromSymbol NonPositive)
  else if PrimFloat.ltb maxBalance v then inr (message maxBalance fromSymbol ExceedsBalance)
  else inl cleaned.

(** A submission that is accepted: the button is enabled, the two tokens
    differ, and the validator succeeds on the "from" amount. *)
Definition accepted (s : State) : Prop :=
  submitDisabled s = false
  /\ symbol (fromToken s) <> symbol (toToken s)
  /\ exists v,
       resolve (createSwapSchema MAX_BALANCE (symbol (fromToken s)) (watchedFromAmount s))
       = inl v.

(** The table of the scenario of the specification: A at 2000, B at 1. *)
Definition scenario_data : list RawItem :=
  [ {| currency := "A"; price := Some 2000%float |};
    {| currency := "B"; price := Some 1%float |} ].

Definition scenario_icons : string := "/tokens".

Definition token_A : Token :=
  {| symbol := "A"; name := "A"; priceUsd := Some 2000%float; iconUrl := "/tokens/A.svg" |}.

Definition token_B : Token :=
  {| symbol := "B"; name := "B"; priceUsd := Some 1%float; iconUrl := "/tokens/B.svg" |}.

(** The state once the component is mounted over that table. *)
Definition scenario_start : State :=
  {| fromToken := token_A; toToken := token_B; isSwapping := false;
     lastUpdatedField := None; successMessage := "";
     form := {| fromAmount := ""; toAmount := ""; errors_fromAmount := None |};
     sync_deps := Some ("", "", 2000%float, None);
     token_deps := Some (token_A, token_B);
     swap_timers := []; alert_timers := 0 |}.

(** A table whose second token has the price 0. *)
Definition zero_price_data : list RawItem :=
  [ {| currency := "A"; price := Some 2000%float |};
    {| currency := "Z"; price := Some 0%float |} ].

(** An amount of 310 digits: 1 followed by 309 zeros. *)
Definition huge_amount : string := String "1" (JS.zeros 309).

(** Two prices whose quotient overflows, as a JSON file can hold them. *)
Definition token_high : Token :=
  {| symbol := "HI"; name := "HI"; priceUsd := Some (JS.parseFloat "1e308"); iconUrl := "" |}.

Definition token_low : Token :=
  {| symbol := "LO"; name := "LO"; priceUsd := Some (JS.parseFloat "1e-308"); iconUrl := "" |}.

(** A price that overflows when it is read ([1e999] reads as Infinity). *)
Definition token_inf : Token :=
  {| symbol := "INF"; name := "INF"; priceUsd := Some (JS.parseFloat "1e999"); iconUrl := "" |}.

(** A rate of 3, and an amount above 2^73 at which the converter does not
    come back. *)
Definition token_C : Token :=
  {| symbol := "C"; name := "C"; priceUsd := Some 3%float; iconUrl := "/tokens/C.svg" |}.

Definition large_amount : float := JS.parseFloat "1.3e22".

(** A positive price so small that the forward result underflows. *)
Definition token_D : Token :=
  {| symbol := "D"; name := "D"; priceUsd := Some (JS.parseFloat "1e-320");
     iconUrl := "/tokens/D.svg" |}.

Definition small_amount : float := JS.parseFloat "0.0001".

(** ** Proof-side definitions *)

Definition blank_form : Form :=
  {| fromAmount := ""; toAmount := ""; errors_fromAmount := None |}.

(** What the effect of lines 124-164 leaves in the form. *)
Definition sync_form (f t : Token) (d : option Field) (fm : Form) : Form :=
  let rate := exchangeRate f t in
  if PrimFloat.leb rate 0 then
    {| fromAmount := ""; toAmount := ""; errors_fromAmount := errors_fromAmount fm |}
  else
    match d with
    | Some FromField =>
        let a := JS.parseFloat (fromAmount fm) in
        {| fromAmount := fromAmount fm;
           toAmount := if (JS.isNaN a || PrimFloat.leb a 0)%bool then ""
                       else JS.toFixed (calculateAmount a rate false) 8;
           errors_fromAmount := errors_fromAmount fm |}
    | Some ToField =>
        let a := JS.parseFloat (toAmount fm) in
        if (JS.isNaN a || PrimFloat.leb a 0)%bool then
          {| fromAmount := ""; toAmount := toAmount fm;
             errors_fromAmount := errors_fromAmount fm |}
        else
          {| fromAmount := JS.toFixed (calculateAmount a rate true) 8;
             toAmount := toAmount fm; errors_fromAmount := None |}
    | None => fm
    end.

(** NaN, and every value that does not carry the minus sign. *)
Definition sf_nonneg (x : spec_float) : bool :=
  match x with
  | S754_zero s | S754_infinity s | S754_finite s _ _ => negb s
  | S754_nan => true
  end.

(** The keys of a token map are distinct and each is its token's symbol. *)
Definition well_keyed (o : list (string * Token)) : Prop :=
  NoDup (map fst o) /\ forall k v, In (k, v) o -> symbol v = k.

(** The invariants of the reachable states. *)
Definition distinct (s : State) : Prop := symbol (fromToken s) <> symbol (toToken s).

Definition rate_blank (s : State) : Prop :=
  PrimFloat.leb (exchangeRate (fromToken s) (toToken s)) 0 = true ->
  watchedFromAmount s = "" /\ watchedToAmount s = "".

Definition cleared (s : State) : Prop :=
  watchedFromAmount s = "" /\ watchedToAmount s = "" /\ lastUpdatedField s = None.

Definition in_flight (s : State) : Prop :=
  match swap_timers s with
  | [] => isSwapping s = false
  | [_] => isSwapping s = true
  | _ => False
  end.

Definition amounts_ok (fm : Form) : Prop :=
  amount_text (fromAmount fm) /\ amount_text (toAmount fm).

(** *** Exact values

    The value of a binary64 number as a rational, for the error analysis of
    the converter. *)

(** The shift that [shr_fexp] makes of a mantissa of [d] bits at exponent [e]. *)
Definition shift_of (d e : Z) : Z := Z.max 0 (fexp prec emax (d + e) - e).

Definition pow2 (e : Z) : Q := (2 ^ e)%Q.

(** The exact value of a finite float; 0 for the others. *)
Definition SF2Q (x : spec_float) : Q :=
  match x with
  | S754_finite s m e => ((if s then -1 else 1) * inject_Z (Z.pos m) * pow2 e)%Q
  | _ => 0%Q
  end.

Definition exact_value (x : float) : Q := SF2Q (Prim2SF x).

(** Zero or a finite number: neither NaN nor an infinity. *)
Definition finite (x : float) : bool :=
  match Prim2SF x with
  | S754_zero _ | S754_finite _ _ _ => true
  | _ => false
  end.

(** Two numbers whose exact values differ by at most 1e-6. *)
Definition within (x y : float) : Prop :=
  finite x = true /\ finite y = true
  /\ (Qabs (exact_value x - exact_value y) <= 1 # 1000000)%Q.


(** ** Texts *)

Section Texts.

Lemma append_nil_r (s : string) : s ++ "" = s.
Proof. induction s; simpl; congruence. Qed.

Lemma append_assoc (a b c : string) : (a ++ b) ++ c = a ++ (b ++ c).
Proof. induction a; simpl; congruence. Qed.

Lemma all_chars_app p (a b : string) :
  JS.all_chars p (a ++ b) = (JS.all_chars p a && JS.all_chars p b)%bool.
Proof. induction a; simpl; [reflexivity|]. rewrite IHa. now rewrite andb_assoc. Qed.

Lemma all_chars_weaken (p q : ascii -> bool) (s : string) :
  (forall c, p c = true -> q c = true) ->
  JS.all_chars p s = true -> JS.all_chars q s = true.
Proof.
  intros H. induction s; simpl; [reflexivity|].
  intros [Ha Hs]%andb_prop. rewrite (H _ Ha), IHs; auto.
Qed.

Lemma count_char_app c (a b : string) :
  JS.count_char c (a ++ b) = (JS.count_char c a + JS.count_char c b)%nat.
Proof. induction a; simpl; [reflexivity|]. rewrite IHa. lia. Qed.

Lemma keep_chars_all p (s : string) : JS.all_chars p (JS.keep_chars p s) = true.
Proof.
  induction s; simpl; [reflexivity|].
  destruct (p a) eqn:E; simpl; [rewrite E|]; auto.
Qed.

Lemma keep_chars_preserves p q (s : string) :
  JS.all_chars q s = true -> JS.all_chars q (JS.keep_chars p s) = true.
Proof.
  induction s; simpl; [reflexivity|].
  intros [Ha Hs]%andb_prop. destruct (p a); simpl; [rewrite Ha|]; auto.
Qed.

Lemma keep_chars_id p (s : string) :
  JS.all_chars p s = true -> JS.keep_chars p s = s.
Proof.
  induction s; simpl; [reflexivity|].
  intros [Ha Hs]%andb_prop. rewrite Ha, IHs; auto.
Qed.

Lemma count_dot_dropped (s : string) :
  JS.count_char "." (JS.keep_chars not_dot s) = 0%nat.
Proof.
  induction s; simpl; [reflexivity|]. unfold not_dot at 1.
  destruct (Ascii.eqb a ".") eqn:E; simpl; [|rewrite E]; auto.
Qed.

Lemma digit_is_allowed c : JS.is_digit c = true -> allowed c = true.
Proof. unfold allowed. now intros ->. Qed.

Lemma digit_not_dot c : JS.is_digit c = true -> Ascii.eqb c "." = false.
Proof.
  destruct (Ascii.eqb c ".") eqn:E; [|reflexivity].
  apply Ascii.eqb_eq in E. subst c. discriminate.
Qed.

Lemma count_dot_digits (s : string) :
  JS.all_chars JS.is_digit s = true -> JS.count_char "." s = 0%nat.
Proof.
  induction s; simpl; [reflexivity|].
  intros [Ha Hs]%andb_prop. rewrite (digit_not_dot _ Ha), IHs; auto.
Qed.

Lemma all_chars_zeros p n : p "0"%char = true -> JS.all_chars p (JS.zeros n) = true.
Proof. intros H. induction n; simpl; [reflexivity|]. now rewrite H. Qed.

Lemma zeros_length n : String.length (JS.zeros n) = n.
Proof. induction n; simpl; congruence. Qed.

Lemma all_chars_substring p (s : string) : forall n m,
  JS.all_chars p s = true -> JS.all_chars p (substring n m s) = true.
Proof.
  induction s; intros n m H.
  - destruct n, m; reflexivity.
  - simpl in H. apply andb_prop in H as [Ha Hs].
    destruct n, m; simpl; auto. rewrite Ha. simpl. auto.
Qed.

(** [split] is never empty, and [join] undoes it up to the separators. *)
Lemma split_cons sep (s : string) : exists p ps, JS.split sep s = p :: ps.
Proof.
  destruct s; simpl; [eauto|].
  destruct (Ascii.eqb a sep); [eauto|].
  destruct (JS.split sep s); eauto.
Qed.

Lemma split_length (s : string) :
  List.length (JS.split "." s) = S (JS.count_char "." s).
Proof.
  induction s; simpl; [reflexivity|].
  destruct (Ascii.eqb a "."); simpl; [now rewrite IHs|].
  destruct (split_cons "." s) as (p & ps & E). rewrite E in *. simpl in *. exact IHs.
Qed.

Lemma join_cons (p : string) (ps : list string) : JS.join (p :: ps) = p ++ JS.join ps.
Proof.
  unfold JS.join. destruct ps; simpl; [now rewrite append_nil_r|reflexivity].
Qed.

Lemma join_split (s : string) : JS.join (JS.split "." s) = JS.keep_chars not_dot s.
Proof.
  induction s; [reflexivity|]. simpl. unfold not_dot at 1.
  destruct (Ascii.eqb a "."); simpl.
  - rewrite join_cons. exact IHs.
  - destruct (split_cons "." s) as (p & ps & E). rewrite E in *.
    rewrite join_cons in *. simpl. now rewrite IHs.
Qed.

Lemma no_dot_dropped (s : string) :
  JS.count_char "." s = 0%nat -> JS.keep_chars not_dot s = s.
Proof.
  induction s; simpl; [reflexivity|]. unfold not_dot at 1.
  destruct (Ascii.eqb a "."); simpl; [discriminate|]. intros H. now rewrite IHs.
Qed.

Lemma first_dot_only_id (s : string) :
  (JS.count_char "." s <= 1)%nat -> first_dot_only s = s.
Proof.
  induction s; simpl; [reflexivity|].
  destruct (Ascii.eqb a "."); simpl; intros H.
  - rewrite no_dot_dropped; [reflexivity|lia].
  - now rewrite IHs.
Qed.

(** The body shared by the transform of the schema and [handleInputChange],
    on a text already stripped. *)
Lemma collapse_dots (c : string) :
  (if (2 <? List.length (JS.split "." c))%nat
   then nth 0 (JS.split "." c) "" ++ "." ++ JS.join (skipn 1 (JS.split "." c))
   else c) = first_dot_only c.
Proof.
  induction c as [|a c IH]; [reflexivity|].
  simpl JS.split. simpl first_dot_only.
  destruct (Ascii.eqb a ".") eqn:Ea.
  - apply Ascii.eqb_eq in Ea. subst a.
    cbn [List.length nth skipn]. rewrite split_length.
    destruct (JS.count_char "." c) eqn:Ec.
    + simpl. now rewrite no_dot_dropped.
    + replace (2 <? S (S (S n)))%nat with true by (symmetry; apply Nat.ltb_lt; lia).
      simpl. now rewrite join_split.
  - destruct (split_cons "." c) as (p & ps & E). rewrite E in *.
    cbn [List.length nth skipn] in *.
    destruct (2 <? S (List.length ps))%nat; simpl; now rewrite <- IH.
Qed.

Lemma cleanValue_spec (val : string) :
  cleanValue val = first_dot_only (JS.keep_chars allowed val).
Proof. unfold cleanValue. apply collapse_dots. Qed.

Lemma first_dot_only_plain (s : string) :
  JS.all_chars allowed s = true -> plain (first_dot_only s) = true.
Proof.
  unfold plain. induction s; simpl; [reflexivity|].
  intros [Ha Hs]%andb_prop.
  destruct (Ascii.eqb a ".") eqn:E; simpl; rewrite Ha, E; simpl.
  - rewrite keep_chars_preserves by assumption. now rewrite count_dot_dropped.
  - apply IHs in Hs. exact Hs.
Qed.

Lemma cleanValue_plain (val : string) : plain (cleanValue val) = true.
Proof. rewrite cleanValue_spec. apply first_dot_only_plain, keep_chars_all. Qed.

Lemma plain_first_dot_only (s : string) : plain s = true -> first_dot_only s = s.
Proof.
  unfold plain. intros [_ H]%andb_prop. apply first_dot_only_id.
  now apply Nat.leb_le.
Qed.

(** Cleaning a text twice is cleaning it once. *)
Lemma cleanValue_idem (val : string) : cleanValue (cleanValue val) = cleanValue val.
Proof.
  pose proof (cleanValue_plain val) as H.
  rewrite (cleanValue_spec (cleanValue val)).
  rewrite keep_chars_id; [now apply plain_first_dot_only|].
  unfold plain in H. now apply andb_prop in H.
Qed.

Lemma cleanValue_empty : cleanValue "" = "".
Proof. reflexivity. Qed.

End Texts.

(** ** Numbers *)

Section Numbers.

Lemma SFcompare_refl (x : spec_float) :
  x <> S754_nan -> SFcompare x x = Some Eq.
Proof.
  destruct x as [s|s| |s m e]; simpl; intros H; try congruence;
    destruct s; try reflexivity;
    rewrite Z.compare_refl, Pos.compare_cont_refl; reflexivity.
Qed.

Lemma SFcompare_antisym (x y : spec_float) :
  SFcompare y x = option_map CompOpp (SFcompare x y).
Proof.
  destruct x as [s1|s1| |s1 m1 e1], y as [s2|s2| |s2 m2 e2]; simpl;
    try reflexivity; try (destruct s1; reflexivity); try (destruct s2; reflexivity);
    try (destruct s1, s2; reflexivity).
  destruct s1, s2; try reflexivity; f_equal;
    rewrite (Z.compare_antisym e1 e2);
    destruct (e1 ?= e2); simpl; try reflexivity;
    pose proof (Pos.compare_cont_antisym m1 m2 Eq) as H; simpl in H;
    rewrite <- H; destruct (Pos.compare_cont Eq m1 m2); reflexivity.
Qed.

Lemma is_nan_spec (x : float) : PrimFloat.is_nan x = true <-> Prim2SF x = S754_nan.
Proof.
  unfold PrimFloat.is_nan. rewrite eqb_spec. unfold SFeqb. split.
  - intros H. destruct (Prim2SF x) eqn:E; try reflexivity;
      rewrite SFcompare_refl in H by discriminate; discriminate.
  - intros ->. reflexivity.
Qed.

Lemma not_nan_spec (x : float) : PrimFloat.is_nan x = false <-> Prim2SF x <> S754_nan.
Proof.
  rewrite <- is_nan_spec. destruct (PrimFloat.is_nan x); split; congruence.
Qed.

(** On numbers that are not NaN, [x < y] is the negation of [y <= x]. *)
Lemma ltb_negb_leb (x y : float) :
  PrimFloat.is_nan x = false -> PrimFloat.is_nan y = false ->
  PrimFloat.ltb x y = negb (PrimFloat.leb y x).
Proof.
  intros Hx%not_nan_spec Hy%not_nan_spec.
  rewrite ltb_spec, leb_spec. unfold SFltb, SFleb.
  rewrite (SFcompare_antisym (Prim2SF x) (Prim2SF y)).
  destruct (SFcompare (Prim2SF x) (Prim2SF y)) as [[]|] eqn:E; try reflexivity.
  exfalso. destruct (Prim2SF x), (Prim2SF y); simpl in E; congruence.
Qed.

Lemma leb_nan_r (x y : float) : PrimFloat.is_nan y = true -> PrimFloat.leb x y = false.
Proof.
  intros H%is_nan_spec. rewrite leb_spec, H. unfold SFleb.
  destruct (Prim2SF x); reflexivity.
Qed.

Lemma leb_nan_l (x y : float) : PrimFloat.is_nan x = true -> PrimFloat.leb x y = false.
Proof. intros H%is_nan_spec. rewrite leb_spec, H. reflexivity. Qed.

Lemma ltb_nan_r (x y : float) : PrimFloat.is_nan y = true -> PrimFloat.ltb x y = false.
Proof.
  intros H%is_nan_spec. rewrite ltb_spec, H. unfold SFltb.
  destruct (Prim2SF x); reflexivity.
Qed.

Lemma is_zero_eqb (x : float) : PrimFloat.eqb x 0 = true -> JS.truthy x = false.
Proof.
  intros H. unfold JS.truthy, PrimFloat.is_zero.
  change (PrimFloat.eqb x zero) with (PrimFloat.eqb x 0). rewrite H.
  now rewrite orb_true_r.
Qed.

End Numbers.

(** ** The validator *)

Section Validator.

Lemma allowed_not_space c : allowed c = true -> JS.is_space c = false.
Proof. destruct c as [[] [] [] [] [] [] [] []]; vm_compute; congruence. Qed.

Lemma trimStart_allowed (s : string) :
  JS.all_chars allowed s = true -> JS.trimStart s = s.
Proof.
  destruct s; simpl; [reflexivity|].
  intros [Ha _]%andb_prop. now rewrite (allowed_not_space _ Ha).
Qed.

Lemma trimEnd_allowed (s : string) :
  JS.all_chars allowed s = true -> JSString.trimEnd s = s.
Proof.
  induction s; simpl; [reflexivity|].
  intros [Ha Hs]%andb_prop. rewrite (IHs Hs), (allowed_not_space _ Ha).
  destruct s; reflexivity.
Qed.

Lemma trim_plain (s : string) : plain s = true -> JSString.trim s = s.
Proof.
  unfold plain, JSString.trim. intros [H _]%andb_prop.
  rewrite trimStart_allowed by assumption. now apply trimEnd_allowed.
Qed.

(** A refinement passes the first issue on, and raises its own only when
    there was none. *)
Lemma resolve_refine check m (p : Zod.parsed) :
  resolve (Zod.refine check m p) =
  match resolve p with
  | inr e => inr e
  | inl v => if check v then inl v else inr m
  end.
Proof.
  unfold resolve, Zod.refine.
  destruct (check (Zod.value_of p)) eqn:E.
  - destruct (Zod.issues_of p); [now rewrite E|reflexivity].
  - simpl. destruct (Zod.issues_of p); simpl; [now rewrite E|reflexivity].
Qed.

Lemma string_eqb_empty (s : string) : (s =? "")%string = (String.length s =? 0)%nat.
Proof. destruct s; reflexivity. Qed.

(** The schema up to the pipe: the cleaned text, or [EmptyAmount]. *)
Lemma schema_cleaning (maxBalance : float) (fromSymbol val : string) :
  resolve
    (Zod.pipe
       (Zod.refine (fun val => negb (JSString.trim val =? "")%string)
          (message maxBalance fromSymbol EmptyAmount))
       (Zod.transform cleanValue
          (Zod.nonempty (message maxBalance fromSymbol EmptyAmount) (Zod.string_ val))))
  = if (String.length (cleanValue val) =? 0)%nat
    then inr (message maxBalance fromSymbol EmptyAmount)
    else inl (cleanValue val).
Proof.
  destruct val as [|a val]; [reflexivity|].
  change (Zod.nonempty (message maxBalance fromSymbol EmptyAmount)
            (Zod.string_ (String a val)))
    with (Zod.string_ (String a val)).
  unfold Zod.transform, Zod.pipe, Zod.string_.
  cbn [Zod.status_of Zod.value_of Zod.issues_of].
  rewrite resolve_refine. unfold resolve at 1. cbn [Zod.issues_of Zod.value_of].
  rewrite trim_plain by apply cleanValue_plain.
  rewrite string_eqb_empty.
  destruct (String.length (cleanValue (String a val)) =? 0)%nat; reflexivity.
Qed.

(** The validator, for every text and every bound that is a number: the
    outcome is decided on the cleaned text by the four tests in their order. *)
Lemma createSwapSchema_outcome (maxBalance : float) (fromSymbol raw : string) :
  PrimFloat.is_nan maxBalance = false ->
  resolve (createSwapSchema maxBalance fromSymbol raw)
  = validator_outcome maxBalance fromSymbol (cleanValue raw).
Proof.
  intros HM. unfold createSwapSchema, validator_outcome.
  rewrite !resolve_refine, schema_cleaning.
  destruct (String.length (cleanValue raw) =? 0)%nat; [reflexivity|].
  unfold JS.isNaN.
  destruct (PrimFloat.is_nan (JS.parseFloat (cleanValue raw))) eqn:En;
    cbn [negb]; [reflexivity|].
  rewrite (ltb_negb_leb 0 _) by (reflexivity || assumption).
  destruct (PrimFloat.leb (JS.parseFloat (cleanValue raw)) 0); cbn [negb]; [reflexivity|].
  rewrite (ltb_negb_leb maxBalance _) by assumption.
  destruct (PrimFloat.leb (JS.parseFloat (cleanValue raw)) maxBalance); reflexivity.
Qed.

End Validator.

(** *** Signs *)

Section Signs.

Lemma binary_round_aux_nonneg m e l :
  sf_nonneg (binary_round_aux prec emax false m e l) = true.
Proof.
  unfold binary_round_aux.
  destruct (shr_fexp prec emax m e l) as [mrs' e'].
  destruct (shr_fexp prec emax _ e' loc_Exact) as [mrs'' e''].
  destruct (shr_m mrs''); [reflexivity| |reflexivity].
  destruct (e'' <=? emax - prec); reflexivity.
Qed.

Lemma SFmul_nonneg x y :
  sf_nonneg x = true -> sf_nonneg y = true -> sf_nonneg (SFmul prec emax x y) = true.
Proof.
  destruct x as [[]|[]| |[] mx ex], y as [[]|[]| |[] my ey]; simpl;
    try discriminate; try reflexivity.
  intros _ _. apply binary_round_aux_nonneg.
Qed.

Lemma SFdiv_nonneg x y :
  sf_nonneg x = true -> sf_nonneg y = true -> sf_nonneg (SFdiv prec emax x y) = true.
Proof.
  destruct x as [[]|[]| |[] mx ex], y as [[]|[]| |[] my ey]; simpl;
    try discriminate; try reflexivity.
  intros _ _.
  destruct (SFdiv_core_binary prec emax (Z.pos mx) ex (Z.pos my) ey) as [[mz ez] lz].
  apply binary_round_aux_nonneg.
Qed.

Lemma leb_false_nonneg (x : float) :
  PrimFloat.leb x 0 = false -> sf_nonneg (Prim2SF x) = true.
Proof.
  rewrite leb_spec. change (Prim2SF 0) with (S754_zero false).
  destruct (Prim2SF x) as [[]|[]| |[] m e]; cbv; congruence.
Qed.

Lemma calculateAmount_nonneg (amount rate : float) (isReverse : bool) :
  sf_nonneg (Prim2SF (calculateAmount amount rate isReverse)) = true.
Proof.
  unfold calculateAmount.
  set (n := JS.parseFloat (JS.toString amount)).
  destruct (JS.isNaN n); [reflexivity|].
  destruct (PrimFloat.leb n 0) eqn:En; [reflexivity|].
  destruct (PrimFloat.leb rate 0) eqn:Er; [reflexivity|].
  cbn [orb].
  assert (sf_nonneg (Prim2SF (rate * (1 - SLIPPAGE_RATE))%float) = true) as Ha.
  { rewrite mul_spec. apply SFmul_nonneg; [now apply leb_false_nonneg|reflexivity]. }
  destruct isReverse.
  - rewrite div_spec. apply SFdiv_nonneg; [now apply leb_false_nonneg|exact Ha].
  - rewrite mul_spec. apply SFmul_nonneg; [now apply leb_false_nonneg|exact Ha].
Qed.

End Signs.

(** *** Quotients that are NaN *)

Section NotNaN.

Lemma iter_pos_invariant {A} (P : A -> Prop) (f : A -> A) :
  (forall x, P x -> P (f x)) -> forall p x, P x -> P (iter_pos f p x).
Proof.
  intros Hf. induction p; intros x Hx; simpl; auto.
Qed.

Lemma shr_1_nonneg (r : shr_record) : 0 <= shr_m r -> 0 <= shr_m (shr_1 r).
Proof.
  destruct r as [m b c]. simpl. destruct m as [|[p|p|]|p]; simpl; lia.
Qed.

Lemma shr_nonneg (r : shr_record) (e n : Z) : 0 <= shr_m r -> 0 <= shr_m (fst (shr r e n)).
Proof.
  intros H. unfold shr. destruct n; simpl; try assumption.
  now apply (iter_pos_invariant (fun r => 0 <= shr_m r) shr_1 shr_1_nonneg).
Qed.

Lemma shr_record_of_loc_m m l : shr_m (shr_record_of_loc m l) = m.
Proof. destruct l as [|[]]; reflexivity. Qed.

Lemma shr_fexp_nonneg m e l : 0 <= m -> 0 <= shr_m (fst (shr_fexp prec emax m e l)).
Proof.
  intros H. unfold shr_fexp. apply shr_nonneg. now rewrite shr_record_of_loc_m.
Qed.

Lemma round_nearest_even_nonneg m l : 0 <= m -> 0 <= round_nearest_even m l.
Proof.
  intros H. unfold round_nearest_even.
  destruct l as [|[]]; try lia. destruct (Z.even m); lia.
Qed.

(** Rounding a magnitude never gives NaN. *)
Lemma binary_round_aux_not_nan s m e l :
  0 <= m -> binary_round_aux prec emax s m e l <> S754_nan.
Proof.
  intros H. unfold binary_round_aux.
  pose proof (shr_fexp_nonneg m e l H) as H1.
  destruct (shr_fexp prec emax m e l) as [mrs' e']. simpl in H1.
  pose proof (shr_fexp_nonneg _ e' loc_Exact
                (round_nearest_even_nonneg _ (loc_of_shr_record mrs') H1)) as H2.
  destruct (shr_fexp prec emax _ e' loc_Exact) as [mrs'' e'']. simpl in H2.
  destruct (shr_m mrs''); [discriminate| |lia].
  destruct (e'' <=? emax - prec); discriminate.
Qed.

Lemma SFdiv_core_binary_nonneg mx ex my ey :
  0 <= fst (fst (SFdiv_core_binary prec emax (Z.pos mx) ex (Z.pos my) ey)).
Proof.
  unfold SFdiv_core_binary.
  set (s := _ - _ - _). set (m' := match s with Z.pos _ => _ | _ => _ end).
  assert (0 <= m') as Hm.
  { subst m'. destruct s; try lia. apply Z.shiftl_nonneg. lia. }
  pose proof (Z.div_pos m' (Z.pos my) Hm eq_refl) as Hq.
  unfold Z.div in Hq. destruct (Z.div_eucl m' (Z.pos my)) as [q r]. exact Hq.
Qed.

(** A quotient is NaN only for 0/0, for two infinities or for a NaN operand. *)
Lemma SFdiv_finite_not_nan sx mx ex sy my ey :
  SFdiv prec emax (S754_finite sx mx ex) (S754_finite sy my ey) <> S754_nan.
Proof.
  simpl. pose proof (SFdiv_core_binary_nonneg mx ex my ey) as H.
  destruct (SFdiv_core_binary prec emax (Z.pos mx) ex (Z.pos my) ey) as [[mz ez] lz].
  now apply binary_round_aux_not_nan.
Qed.

Lemma is_infinity_spec (x : float) :
  PrimFloat.is_infinity x = true <-> exists s, Prim2SF x = S754_infinity s.
Proof.
  unfold PrimFloat.is_infinity. rewrite eqb_spec, abs_spec.
  change (Prim2SF infinity) with (S754_infinity false).
  destruct (Prim2SF x) as [s|s| |s m e]; cbv; split;
    try discriminate; try (intros [s' H]; discriminate); eauto.
Qed.

Lemma ltb_0_spec (x : float) :
  PrimFloat.ltb 0 x = true ->
  (exists m e, Prim2SF x = S754_finite false m e) \/ Prim2SF x = S754_infinity false.
Proof.
  rewrite ltb_spec. change (Prim2SF 0) with (S754_zero false).
  destruct (Prim2SF x) as [s|[]| |[] m e]; cbv; try discriminate; eauto.
Qed.

Lemma truthy_spec (x : float) :
  JS.truthy x = true ->
  (exists s m e, Prim2SF x = S754_finite s m e) \/ (exists s, Prim2SF x = S754_infinity s).
Proof.
  unfold JS.truthy. rewrite negb_true_iff, orb_false_iff. intros [Hn Hz].
  apply not_nan_spec in Hn. unfold PrimFloat.is_zero in Hz. rewrite eqb_spec in Hz.
  change (Prim2SF zero) with (S754_zero false) in Hz.
  destruct (Prim2SF x) as [s|s| |s m e]; try congruence; eauto.
  cbv in Hz. discriminate.
Qed.

Lemma ltb_0_truthy (x : float) : PrimFloat.ltb 0 x = true -> JS.truthy x = true.
Proof.
  intros H. unfold JS.truthy. apply negb_true_iff, orb_false_iff. split.
  - apply not_nan_spec. destruct (ltb_0_spec x H) as [(m & e & ->)| ->]; discriminate.
  - unfold PrimFloat.is_zero. rewrite eqb_spec.
    change (Prim2SF zero) with (S754_zero false).
    destruct (ltb_0_spec x H) as [(m & e & ->)| ->]; reflexivity.
Qed.

(** The quotient of a number that is neither 0 nor NaN by a positive one is
    NaN only when both are infinite. *)
Lemma div_nan_infinite (x y : float) :
  JS.truthy x = true -> PrimFloat.ltb 0 y = true ->
  PrimFloat.is_nan (x / y) = true ->
  PrimFloat.is_infinity x = true /\ PrimFloat.is_infinity y = true.
Proof.
  intros Hx Hy Hn. apply is_nan_spec in Hn. rewrite div_spec in Hn.
  rewrite !is_infinity_spec. unfold SF64div in Hn.
  destruct (truthy_spec x Hx) as [(s & m & e & Ex)|[s Ex]];
    destruct (ltb_0_spec y Hy) as [(m' & e' & Ey)|Ey];
    rewrite Ex, Ey in Hn; eauto.
  - now apply SFdiv_finite_not_nan in Hn.
  - discriminate.
  - discriminate.
Qed.

End NotNaN.

(** *** The texts of [toFixed] *)

Section FixedTexts.

Lemma string_of_uint_digits (d : Decimal.uint) :
  JS.all_chars JS.is_digit (NilEmpty.string_of_uint d) = true.
Proof. induction d; simpl; auto. Qed.

Lemma digits_of_digits (n : Z) : JS.all_chars JS.is_digit (JS.digits_of n) = true.
Proof.
  unfold JS.digits_of, NilZero.string_of_uint.
  destruct (N.to_uint (Z.to_N n)) eqn:E; try reflexivity;
    rewrite <- E; apply string_of_uint_digits.
Qed.

Lemma fixed_text_plain (n : Z) (f : nat) : plain (JS.fixed_text n (S f)) = true.
Proof.
  unfold JS.fixed_text, plain.
  set (m' := if (_ <=? _)%nat then _ else _).
  assert (JS.all_chars JS.is_digit m' = true) as Hm.
  { subst m'. destruct (_ <=? _)%nat; [|apply digits_of_digits].
    rewrite all_chars_app, all_chars_zeros by reflexivity. apply digits_of_digits. }
  assert (forall a b, JS.all_chars allowed (substring a b m') = true) as Ha.
  { intros a b. apply (all_chars_weaken _ _ _ digit_is_allowed).
    apply all_chars_substring, Hm. }
  assert (forall a b, JS.count_char "." (substring a b m') = 0%nat) as Hc.
  { intros a b. apply count_dot_digits, all_chars_substring, Hm. }
  rewrite !all_chars_app, !count_char_app, !Ha, !Hc. reflexivity.
Qed.

Lemma toFixed_amount_text (x : float) :
  sf_nonneg (Prim2SF x) = true -> amount_text (JS.toFixed x 8).
Proof.
  intros Hs. unfold amount_text.
  destruct (beyond_fixed x) eqn:Eb; [right; right; now exists x|].
  right; left. unfold JS.toFixed. unfold beyond_fixed in Eb.
  destruct (Prim2SF x) as [s|s| |s m e]; try discriminate.
  - apply fixed_text_plain.
  - destruct (JS.fraction_of m e) as [num den]. rewrite Eb.
    destruct s; [discriminate|]. apply fixed_text_plain.
Qed.

End FixedTexts.

(** ** The component: one render, settling, invariants *)

Section AppProofs.

Variable rawTokenData : list RawItem.
Variable TOKEN_ICONS_URL : string.

Local Abbreviation processedTokenData := (processedTokenData rawTokenData TOKEN_ICONS_URL).
Local Abbreviation TOKENS := (TOKENS rawTokenData TOKEN_ICONS_URL).
Local Abbreviation other_token := (other_token rawTokenData TOKEN_ICONS_URL).
Local Abbreviation reassigned := (reassigned rawTokenData TOKEN_ICONS_URL).
Local Abbreviation tokenEffect := (tokenEffect rawTokenData TOKEN_ICONS_URL).
Local Abbreviation render := (render rawTokenData TOKEN_ICONS_URL).
Local Abbreviation settle := (settle rawTokenData TOKEN_ICONS_URL).
Local Abbreviation step := (step rawTokenData TOKEN_ICONS_URL).
Local Abbreviation run := (run rawTokenData TOKEN_ICONS_URL).
Local Abbreviation mount := (mount rawTokenData TOKEN_ICONS_URL).
Local Abbreviation reachable := (reachable rawTokenData TOKEN_ICONS_URL).

Lemma float_eqb_refl (x : float) : PrimFloat.Leibniz.eqb x x = true.
Proof. now apply Leibniz.eqb_spec. Qed.

Lemma token_eqb_spec (a b : Token) : token_eqb a b = true <-> a = b.
Proof.
  destruct a as [s1 n1 p1 i1], b as [s2 n2 p2 i2]. unfold token_eqb. simpl.
  rewrite !andb_true_iff, !String.eqb_eq. split.
  - intros [[[-> ->] Hp] ->]. f_equal.
    destruct p1, p2; try discriminate; [|reflexivity].
    apply Leibniz.eqb_spec in Hp. now subst.
  - intros [= -> -> -> ->]. repeat split.
    destruct p2; [apply float_eqb_refl|reflexivity].
Qed.

Lemma driving_eqb_spec (a b : option Field) : driving_eqb a b = true <-> a = b.
Proof. destruct a as [[]|], b as [[]|]; simpl; split; congruence. Qed.

Lemma sync_deps_eqb_spec (a b : SyncDeps) : sync_deps_eqb a b = true <-> a = b.
Proof.
  destruct a as [[[f1 t1] r1] d1], b as [[[f2 t2] r2] d2]. unfold sync_deps_eqb.
  rewrite !andb_true_iff, !String.eqb_eq, Leibniz.eqb_spec, driving_eqb_spec.
  split; [intros [[[-> ->] ->] ->]; reflexivity|intros [= -> -> -> ->]; auto].
Qed.

Lemma token_deps_eqb_spec (a b : Token * Token) : token_deps_eqb a b = true <-> a = b.
Proof.
  destruct a, b. unfold token_deps_eqb. simpl.
  rewrite andb_true_iff, !token_eqb_spec. split; [intros [-> ->]|intros [= -> ->]]; auto.
Qed.

Lemma changed_false {D} (eqb : D -> D -> bool) (last : option D) (now : D) :
  (forall a b, eqb a b = true <-> a = b) ->
  changed eqb last now = false <-> last = Some now.
Proof.
  intros H. destruct last as [d|]; simpl; [|split; discriminate].
  rewrite negb_false_iff, H. split; congruence.
Qed.

Lemma render_fixed (s : State) :
  sync_deps s = Some (sync_deps_of s) -> token_deps s = Some (token_deps_of s) ->
  render s = s.
Proof.
  intros H1 H2. unfold render.
  rewrite (proj2 (changed_false _ _ _ sync_deps_eqb_spec) H1).
  rewrite (proj2 (changed_false _ _ _ token_deps_eqb_spec) H2).
  destruct s; simpl in *. now rewrite H1, H2.
Qed.


(** *** One render, field by field *)

Lemma state_ext (s t : State) :
  fromToken s = fromToken t -> toToken s = toToken t ->
  isSwapping s = isSwapping t -> lastUpdatedField s = lastUpdatedField t ->
  successMessage s = successMessage t -> form s = form t ->
  sync_deps s = sync_deps t -> token_deps s = token_deps t ->
  swap_timers s = swap_timers t -> alert_timers s = alert_timers t -> s = t.
Proof. destruct s, t; simpl; intros; subst; reflexivity. Qed.

Lemma form_eta (f : Form) :
  {| fromAmount := fromAmount f; toAmount := toAmount f;
     errors_fromAmount := errors_fromAmount f |} = f.
Proof. now destruct f. Qed.

Lemma syncEffect_eq (s : State) :
  syncEffect s s
  = with_form (sync_form (fromToken s) (toToken s) (lastUpdatedField s) (form s)) s.
Proof.
  unfold syncEffect, sync_form, watchedFromAmount, watchedToAmount.
  destruct (PrimFloat.leb (exchangeRate (fromToken s) (toToken s)) 0); [reflexivity|].
  destruct (lastUpdatedField s) as [[]|].
  - destruct (JS.isNaN _ || PrimFloat.leb _ 0)%bool; reflexivity.
  - destruct (JS.isNaN _ || PrimFloat.leb _ 0)%bool; reflexivity.
  - destruct s as [? ? ? ? ? [] ? ? ? ?]; reflexivity.
Qed.

Lemma tokenEffect_eq (snap st : State) :
  fromToken st = fromToken snap -> toToken st = toToken snap ->
  tokenEffect snap st
  = setLastUpdatedField None (with_form blank_form (setToToken (reassigned snap) st)).
Proof.
  intros Hf Ht. unfold tokenEffect, reassigned, other_token.
  destruct (symbol (fromToken snap) =? symbol (toToken snap))%string;
    [destruct (find _ TOKENS)|]; try reflexivity;
    rewrite <- Ht; destruct st; reflexivity.
Qed.

Lemma render_eq (s : State) :
  render s =
  {| fromToken := fromToken s;
     toToken := if token_runs s then reassigned s else toToken s;
     isSwapping := isSwapping s;
     lastUpdatedField := if token_runs s then None else lastUpdatedField s;
     successMessage := successMessage s;
     form := if token_runs s then blank_form
             else if sync_runs s
                  then sync_form (fromToken s) (toToken s) (lastUpdatedField s) (form s)
                  else form s;
     sync_deps := Some (sync_deps_of s);
     token_deps := Some (token_deps_of s);
     swap_timers := swap_timers s;
     alert_timers := alert_timers s |}.
Proof.
  unfold render. fold (sync_runs s) (token_runs s).
  destruct (token_runs s).
  - rewrite tokenEffect_eq by (destruct (sync_runs s); [rewrite syncEffect_eq|]; reflexivity).
    destruct (sync_runs s); [rewrite syncEffect_eq|]; reflexivity.
  - destruct (sync_runs s); [rewrite syncEffect_eq|]; destruct s; reflexivity.
Qed.

Lemma sync_form_idem f t d fm :
  sync_form f t d (sync_form f t d fm) = sync_form f t d fm.
Proof.
  unfold sync_form.
  destruct (PrimFloat.leb (exchangeRate f t) 0) eqn:Er; [reflexivity|].
  destruct d as [[]|]; [ | |reflexivity].
  - cbn [fromAmount toAmount errors_fromAmount]. reflexivity.
  - destruct (JS.isNaN (JS.parseFloat (toAmount fm)) || _)%bool eqn:E;
      cbn [fromAmount toAmount errors_fromAmount]; rewrite E; reflexivity.
Qed.

Lemma sync_form_blank f t fm :
  fromAmount fm = "" -> toAmount fm = "" ->
  sync_form f t None fm = fm.
Proof.
  intros H1 H2. unfold sync_form.
  destruct (PrimFloat.leb (exchangeRate f t) 0); [|reflexivity].
  rewrite <- H1 at 1. rewrite <- H2 at 1. apply form_eta.
Qed.

Lemma other_token_symbol f t :
  other_token f = Some t -> (symbol f =? symbol t)%string = false.
Proof.
  unfold other_token. intros [_ H]%find_some.
  rewrite String.eqb_sym. now apply negb_true_iff.
Qed.

Lemma token_runs_render (s : State) :
  token_runs (render s) = negb (token_eqb (toToken s) (toToken (render s))).
Proof.
  unfold token_runs at 1. rewrite render_eq at 1 2. cbn [token_deps token_deps_of fromToken toToken changed].
  unfold token_deps_eqb. cbn [fst snd].
  rewrite (proj2 (token_eqb_spec _ _) eq_refl). rewrite render_eq. reflexivity.
Qed.


Lemma render_fromToken s : fromToken (render s) = fromToken s.
Proof. now rewrite render_eq. Qed.

Lemma render_toToken s :
  toToken (render s) = if token_runs s then reassigned s else toToken s.
Proof. now rewrite render_eq. Qed.

Lemma render_lastUpdatedField s :
  lastUpdatedField (render s) = if token_runs s then None else lastUpdatedField s.
Proof. now rewrite render_eq. Qed.

Lemma render_form s :
  form (render s) =
  if token_runs s then blank_form
  else if sync_runs s
       then sync_form (fromToken s) (toToken s) (lastUpdatedField s) (form s)
       else form s.
Proof. now rewrite render_eq. Qed.

Lemma render_isSwapping s : isSwapping (render s) = isSwapping s.
Proof. now rewrite render_eq. Qed.

Lemma render_successMessage s : successMessage (render s) = successMessage s.
Proof. now rewrite render_eq. Qed.

Lemma render_swap_timers s : swap_timers (render s) = swap_timers s.
Proof. now rewrite render_eq. Qed.

Lemma render_alert_timers s : alert_timers (render s) = alert_timers s.
Proof. now rewrite render_eq. Qed.

Lemma render_sync_deps s : sync_deps (render s) = Some (sync_deps_of s).
Proof. now rewrite render_eq. Qed.

Lemma render_token_deps s : token_deps (render s) = Some (token_deps_of s).
Proof. now rewrite render_eq. Qed.

Lemma token_eqb_refl t : token_eqb t t = true.
Proof. now apply token_eqb_spec. Qed.

Lemma reassigned_differs s :
  token_eqb (toToken s) (reassigned s) = false ->
  (symbol (fromToken s) =? symbol (reassigned s))%string = false.
Proof.
  unfold reassigned.
  destruct (symbol (fromToken s) =? symbol (toToken s))%string eqn:E;
    [|now rewrite token_eqb_refl].
  destruct (other_token (fromToken s)) eqn:Eo; [|now rewrite token_eqb_refl].
  intros _. now apply other_token_symbol.
Qed.

(** A second render moves no token. *)
Lemma render_render_toToken s : toToken (render (render s)) = toToken (render s).
Proof.
  rewrite (render_toToken (render s)).
  destruct (token_runs (render s)) eqn:E; [|reflexivity].
  rewrite token_runs_render, render_toToken in E.
  unfold reassigned at 1. rewrite render_fromToken, render_toToken.
  destruct (token_runs s); [|now rewrite token_eqb_refl in E].
  apply negb_true_iff, reassigned_differs in E. now rewrite E.
Qed.

Lemma render_render_lastUpdatedField s :
  lastUpdatedField (render (render s)) = lastUpdatedField (render s).
Proof.
  rewrite (render_lastUpdatedField (render s)).
  destruct (token_runs (render s)) eqn:E; [|reflexivity].
  rewrite token_runs_render, render_toToken in E.
  rewrite render_lastUpdatedField.
  destruct (token_runs s); [reflexivity|now rewrite token_eqb_refl in E].
Qed.

Lemma sync_runs_false s :
  sync_runs s = false <-> sync_deps s = Some (sync_deps_of s).
Proof. apply changed_false, sync_deps_eqb_spec. Qed.

Lemma token_runs_false s :
  token_runs s = false <-> token_deps s = Some (token_deps_of s).
Proof. apply changed_false, token_deps_eqb_spec. Qed.

Lemma render_render_form s : form (render (render s)) = form (render s).
Proof.
  rewrite (render_form (render s)).
  destruct (token_runs (render s)) eqn:E.
  { rewrite token_runs_render, render_toToken in E. rewrite render_form.
    destruct (token_runs s); [reflexivity|now rewrite token_eqb_refl in E]. }
  destruct (sync_runs (render s)) eqn:E1; [|reflexivity].
  apply token_runs_false in E. rewrite render_token_deps in E.
  assert (toToken s = toToken (render s)) as E' by (unfold token_deps_of in E; congruence).
  clear E. rename E' into E.
  rewrite render_fromToken, <- E, render_lastUpdatedField, render_form.
  destruct (token_runs s) eqn:Et.
  - apply sync_form_blank; reflexivity.
  - destruct (sync_runs s) eqn:Es; [apply sync_form_idem|].
    exfalso. assert (sync_runs (render s) = false) as H; [|congruence].
    apply sync_runs_false. rewrite render_sync_deps. f_equal.
    unfold sync_deps_of, watchedFromAmount, watchedToAmount.
    rewrite render_form, render_fromToken, render_lastUpdatedField, Et, Es, <- E.
    reflexivity.
Qed.

Lemma render_twice_fixed s : render (render (render s)) = render (render s).
Proof.
  apply render_fixed.
  - rewrite render_sync_deps. f_equal.
    unfold sync_deps_of, watchedFromAmount, watchedToAmount.
    now rewrite render_render_form, render_render_toToken,
      render_render_lastUpdatedField, !render_fromToken.
  - rewrite render_token_deps. f_equal. unfold token_deps_of.
    now rewrite render_render_toToken, !render_fromToken.
Qed.

(** The state after an event is one that no further render changes. *)
Lemma render_settle s : render (settle s) = settle s.
Proof. unfold settle. now rewrite !render_twice_fixed. Qed.

Lemma settle_eq s : settle s = render (render s).
Proof. unfold settle. apply render_twice_fixed. Qed.

Lemma settle_fixed s : render s = s -> settle s = s.
Proof. intros H. unfold settle. now rewrite !H. Qed.

Lemma fixed_deps s :
  render s = s ->
  sync_deps s = Some (sync_deps_of s) /\ token_deps s = Some (token_deps_of s).
Proof.
  intros H. split.
  - rewrite <- H at 1. apply render_sync_deps.
  - rewrite <- H at 1. apply render_token_deps.
Qed.


(** *** The token table *)

Lemma has_key_In {A} k (o : list (string * A)) :
  has_key k o = true <-> In k (map fst o).
Proof.
  induction o as [|[k' v'] o IH]; simpl; [split; [discriminate|tauto]|].
  rewrite orb_true_iff, String.eqb_eq, IH. split; intros [H|H]; auto.
Qed.

Lemma obj_update_keys {A} k (v : A) o : map fst (obj_update k v o) = map fst o.
Proof.
  induction o as [|[k' v'] o IH]; simpl; [reflexivity|].
  destruct (k =? k')%string; simpl; congruence.
Qed.

Lemma obj_update_In {A} k (v : A) o k1 v1 :
  In (k1, v1) (obj_update k v o) -> In (k1, v1) o \/ (k1 = k /\ v1 = v).
Proof.
  induction o as [|[k' v'] o IH]; simpl; [tauto|].
  destruct (k =? k')%string eqn:E; simpl.
  - apply String.eqb_eq in E. subst k'. intros [[= <- <-]|H]; auto.
  - intros [H|H]; auto. destruct (IH H); auto.
Qed.

Lemma obj_insert_perm {A} k (v : A) o : Permutation (obj_insert k v o) ((k, v) :: o).
Proof.
  induction o as [|[k' v'] o IH]; simpl; [constructor; constructor|].
  destruct (array_index k), (array_index k'); try reflexivity.
  - destruct (Z.ltb _ _); [reflexivity|].
    etransitivity; [apply perm_skip, IH|apply perm_swap].
  - etransitivity; [apply perm_skip, IH|apply perm_swap].
  - etransitivity; [apply perm_skip, IH|apply perm_swap].
Qed.

Lemma obj_set_well_keyed k v o :
  symbol v = k -> well_keyed o -> well_keyed (obj_set k v o).
Proof.
  intros Hv [Hn Hs]. unfold obj_set. destruct (has_key k o) eqn:E.
  - split; [now rewrite obj_update_keys|].
    intros k1 v1 [H|[-> ->]]%obj_update_In; auto.
  - assert (~ In k (map fst o)) as Hk.
    { intros H%has_key_In. congruence. }
    pose proof (obj_insert_perm k v o) as P. split.
    + apply (Permutation_NoDup (l := map fst ((k, v) :: o))).
      * symmetry. now apply Permutation_map.
      * simpl. now constructor.
    + intros k1 v1 H. apply (Permutation_in _ P) in H as [[= <- <-]|H]; auto.
Qed.

Lemma processedTokenData_well_keyed :
  well_keyed processedTokenData.
Proof.
  unfold processedTokenData.
  assert (well_keyed []) as H by (split; [constructor|intros ? ? []]).
  revert H. generalize (@nil (string * Token)).
  induction rawTokenData as [|item items IH]; intros acc H; simpl; [exact H|].
  apply IH, obj_set_well_keyed; [reflexivity|exact H].
Qed.

(** No two tokens of the table share a symbol. *)
Lemma TOKENS_NoDup : NoDup (map symbol TOKENS).
Proof.
  destruct processedTokenData_well_keyed as [Hn Hs].
  unfold TOKENS, obj_values. rewrite map_map.
  erewrite map_ext_in; [exact Hn|].
  intros [k v] H. simpl. now apply Hs.
Qed.

(** With two tokens or more, every token has another one beside it. *)
Lemma other_token_exists (f : Token) :
  (2 <= List.length TOKENS)%nat -> exists t, other_token f = Some t.
Proof.
  intros Hl. pose proof TOKENS_NoDup as Hn. unfold other_token.
  destruct TOKENS as [|a [|b r]]; simpl in Hl; try lia.
  simpl. destruct (symbol a =? symbol f)%string eqn:Ea; simpl; [|eauto].
  destruct (symbol b =? symbol f)%string eqn:Eb; simpl; [|eauto].
  apply String.eqb_eq in Ea, Eb. exfalso.
  inversion Hn as [|? ? Hin _]; subst. apply Hin. simpl. left. congruence.
Qed.

(** *** The two tokens differ *)

Lemma reassigned_distinct s : distinct s -> reassigned s = toToken s.
Proof.
  unfold distinct, reassigned. intros H%String.eqb_neq. now rewrite H.
Qed.

Lemma render_keeps_distinct s : distinct s -> distinct (render s).
Proof.
  intros H. unfold distinct. rewrite render_fromToken, render_toToken.
  rewrite (reassigned_distinct _ H). now destruct (token_runs s).
Qed.

Lemma render_makes_distinct s :
  (2 <= List.length TOKENS)%nat ->
  distinct s \/ token_runs s = true -> distinct (render s).
Proof.
  intros Hl [H|H]; [now apply render_keeps_distinct|].
  unfold distinct. rewrite render_fromToken, render_toToken, H.
  unfold reassigned.
  destruct (symbol (fromToken s) =? symbol (toToken s))%string eqn:E;
    [|now apply String.eqb_neq].
  destruct (other_token_exists (fromToken s) Hl) as [t Ht]. rewrite Ht.
  apply String.eqb_neq. now apply other_token_symbol.
Qed.

Lemma settle_makes_distinct s :
  (2 <= List.length TOKENS)%nat ->
  distinct s \/ token_runs s = true -> distinct (settle s).
Proof.
  intros Hl H. rewrite settle_eq. now apply render_keeps_distinct, render_makes_distinct.
Qed.

(** No handler touches what React remembers of the dependencies. *)
Lemma dispatch_deps e s :
  sync_deps (dispatch e s) = sync_deps s /\ token_deps (dispatch e s) = token_deps s.
Proof.
  destruct e; cbn [dispatch]; try (split; reflexivity).
  - unfold handleInputChange, validateFromAmount.
    destruct (resolve _); split; reflexivity.
  - destruct (toInputDisabled s); split; reflexivity.
  - destruct (submitDisabled s); [split; reflexivity|].
    unfold handleSubmit, onSubmit. destruct (resolve _); [|split; reflexivity].
    cbn [fromToken toToken setError with_form].
    destruct (_ =? _)%string; [split; reflexivity|].
    destruct (PrimFloat.leb _ 0); split; reflexivity.
  - destruct (swap_timers s) as [|[a b] r]; split; reflexivity.
  - destruct (alert_timers s); split; reflexivity.
Qed.

Lemma dispatch_distinct e s :
  render s = s -> distinct s ->
  distinct (dispatch e s) \/ token_runs (dispatch e s) = true.
Proof.
  intros [_ Hd]%fixed_deps Hs.
  destruct (token_runs (dispatch e s)) eqn:E; [now right|left].
  apply token_runs_false in E. rewrite (proj2 (dispatch_deps e s)), Hd in E.
  unfold distinct. unfold token_deps_of in E. congruence.
Qed.

Lemma reachable_fixed s : reachable s -> render s = s.
Proof.
  intros [s0 H|s0 e _ _].
  - unfold mount in H. destruct defaultFromToken, defaultToToken; try discriminate.
    injection H as <-. apply render_settle.
  - apply render_settle.
Qed.

Lemma reachable_distinct s :
  (2 <= List.length TOKENS)%nat -> reachable s -> distinct s.
Proof.
  intros Hl. induction 1 as [s0 H|s0 e Hr IH _].
  - unfold mount in H. destruct defaultFromToken, defaultToToken; try discriminate.
    injection H as <-. apply settle_makes_distinct; [assumption|now right].
  - apply settle_makes_distinct; [assumption|].
    apply dispatch_distinct; [now apply reachable_fixed|assumption].
Qed.


(** *** An unavailable rate blanks both fields *)

Lemma render_rate_blank s :
  rate_blank s \/ sync_runs s = true -> rate_blank (render s).
Proof.
  intros H. unfold rate_blank, watchedFromAmount, watchedToAmount.
  rewrite render_form, render_fromToken, render_toToken.
  destruct (token_runs s); [now split|].
  intros Hr. destruct (sync_runs s) eqn:Es.
  - unfold sync_form. rewrite Hr. now split.
  - destruct H as [H|H]; [now apply H|discriminate].
Qed.

Lemma settle_rate_blank s :
  rate_blank s \/ sync_runs s = true -> rate_blank (settle s).
Proof.
  intros H. rewrite settle_eq. apply render_rate_blank. left.
  now apply render_rate_blank.
Qed.

Lemma dispatch_rate_blank e s :
  render s = s -> rate_blank s ->
  rate_blank (dispatch e s) \/ sync_runs (dispatch e s) = true.
Proof.
  intros [Hd _]%fixed_deps Hs.
  destruct (sync_runs (dispatch e s)) eqn:E; [now right|left].
  apply sync_runs_false in E. rewrite (proj1 (dispatch_deps e s)), Hd in E.
  unfold sync_deps_of in E. injection E as E1 E2 E3 _.
  unfold rate_blank. rewrite <- E1, <- E2, <- E3. exact Hs.
Qed.

Lemma reachable_rate_blank s : reachable s -> rate_blank s.
Proof.
  induction 1 as [s0 H|s0 e Hr IH _].
  - unfold mount in H. destruct defaultFromToken, defaultToToken; try discriminate.
    injection H as <-. apply settle_rate_blank. now right.
  - apply settle_rate_blank, dispatch_rate_blank; [now apply reachable_fixed|assumption].
Qed.

(** *** Blank fields with no driving field stay so *)

Lemma render_cleared s : cleared s -> cleared (render s).
Proof.
  unfold cleared, watchedFromAmount, watchedToAmount. intros (H1 & H2 & H3).
  rewrite render_form, render_lastUpdatedField.
  destruct (token_runs s); [now repeat split|].
  destruct (sync_runs s); [|now repeat split].
  rewrite H3, sync_form_blank by assumption. now repeat split.
Qed.

Lemma settle_cleared s : cleared s -> cleared (settle s).
Proof. intros H. unfold settle. now do 3 apply render_cleared. Qed.

Lemma render_clears s : token_runs s = true -> cleared (render s).
Proof.
  intros H. unfold cleared, watchedFromAmount, watchedToAmount.
  rewrite render_form, render_lastUpdatedField, H. now repeat split.
Qed.

Lemma settle_clears s : token_runs s = true -> cleared (settle s).
Proof. intros H. unfold settle. now do 2 apply render_cleared; apply render_clears. Qed.

Lemma settle_fromToken s : fromToken (settle s) = fromToken s.
Proof. unfold settle. now rewrite !render_fromToken. Qed.

Lemma settle_toToken s : toToken (settle s) = toToken (render s).
Proof. rewrite settle_eq. apply render_render_toToken. Qed.

Lemma settle_isSwapping s : isSwapping (settle s) = isSwapping s.
Proof. unfold settle. now rewrite !render_isSwapping. Qed.

Lemma settle_successMessage s : successMessage (settle s) = successMessage s.
Proof. unfold settle. now rewrite !render_successMessage. Qed.

Lemma settle_swap_timers s : swap_timers (settle s) = swap_timers s.
Proof. unfold settle. now rewrite !render_swap_timers. Qed.

(** The swap of direction, from a state where the two tokens differ: the
    tokens are exchanged and the effect of lines 176-188 then resets what the
    handler had moved. *)
Lemma swap_resets s :
  render s = s -> distinct s ->
  let s' := step s SwapDirection in
  fromToken s' = toToken s /\ toToken s' = fromToken s /\ cleared s'.
Proof.
  intros [_ Hd]%fixed_deps Hs. unfold step. cbn [dispatch].
  set (s1 := handleSwapTokens s).
  assert (token_runs s1 = true) as Hr.
  { destruct (token_runs s1) eqn:E; [reflexivity|exfalso].
    apply token_runs_false in E. subst s1.
    change (token_deps (handleSwapTokens s)) with (token_deps s) in E.
    rewrite Hd in E. injection E as E1 E2.
    change (fromToken (handleSwapTokens s)) with (toToken s) in E1.
    apply Hs. now rewrite E1. }
  assert (distinct s1) as Hs1 by (intros H; apply Hs; symmetry; exact H).
  repeat split.
  - now rewrite settle_fromToken.
  - rewrite settle_toToken, render_toToken, Hr. now rewrite reassigned_distinct.
  - apply (settle_clears s1 Hr).
  - apply (settle_clears s1 Hr).
  - apply (settle_clears s1 Hr).
Qed.

(** *** The timer of a swap in flight *)

Lemma submitDisabled_swapping s : isSwapping s = true -> submitDisabled s = true.
Proof. unfold submitDisabled. now intros ->. Qed.

Lemma dispatch_in_flight e s : in_flight s -> in_flight (dispatch e s).
Proof.
  unfold in_flight. intros H. destruct e; cbn [dispatch]; try exact H.
  - unfold handleInputChange, validateFromAmount. now destruct (resolve _).
  - now destruct (toInputDisabled s).
  - destruct (submitDisabled s) eqn:Ed; [exact H|].
    assert (isSwapping s = false) as Hf.
    { destruct (isSwapping s) eqn:E; [|reflexivity].
      now rewrite (submitDisabled_swapping s E) in Ed. }
    unfold handleSubmit, onSubmit. destruct (resolve _); [|exact H].
    cbn [fromToken toToken setError with_form].
    destruct (_ =? _)%string; [exact H|].
    destruct (PrimFloat.leb _ 0); [exact H|].
    cbn [swap_timers with_timers isSwapping setIsSwapping setError with_form].
    destruct (swap_timers s) as [|c [|c' r]]; [reflexivity|congruence|contradiction].
  - destruct (swap_timers s) as [|[a b] [|c' r]] eqn:E;
      [now rewrite E|reflexivity|contradiction].
  - now destruct (alert_timers s).
Qed.

Lemma settle_in_flight s : in_flight s -> in_flight (settle s).
Proof. unfold in_flight. now rewrite settle_swap_timers, settle_isSwapping. Qed.

Lemma reachable_in_flight s : reachable s -> in_flight s.
Proof.
  induction 1 as [s0 H|s0 e Hr IH _].
  - unfold mount in H. destruct defaultFromToken, defaultToToken; try discriminate.
    injection H as <-. apply settle_in_flight. reflexivity.
  - now apply settle_in_flight, dispatch_in_flight.
Qed.


(** *** The texts of the two fields *)

Lemma amount_text_empty : amount_text "".
Proof. now left. Qed.

Lemma amount_text_clean v : amount_text (cleanValue v).
Proof. right; left. apply cleanValue_plain. Qed.

Lemma amount_text_derived a rate rev :
  amount_text (JS.toFixed (calculateAmount a rate rev) 8).
Proof. apply toFixed_amount_text, calculateAmount_nonneg. Qed.

Lemma sync_form_amounts f t d fm : amounts_ok fm -> amounts_ok (sync_form f t d fm).
Proof.
  unfold amounts_ok, sync_form. intros [H1 H2].
  destruct (PrimFloat.leb (exchangeRate f t) 0); [split; apply amount_text_empty|].
  destruct d as [[]|]; [| |now split].
  - cbn [fromAmount toAmount]. split; [exact H1|].
    destruct (_ || _)%bool; [apply amount_text_empty|apply amount_text_derived].
  - destruct (_ || _)%bool; cbn [fromAmount toAmount];
      (split; [|exact H2]); [apply amount_text_empty|apply amount_text_derived].
Qed.

Lemma render_amounts s : amounts_ok (form s) -> amounts_ok (form (render s)).
Proof.
  intros H. rewrite render_form.
  destruct (token_runs s); [split; apply amount_text_empty|].
  destruct (sync_runs s); [now apply sync_form_amounts|exact H].
Qed.

Lemma settle_amounts s : amounts_ok (form s) -> amounts_ok (form (settle s)).
Proof. intros H. unfold settle. now do 3 apply render_amounts. Qed.

Lemma dispatch_amounts e s : amounts_ok (form s) -> amounts_ok (form (dispatch e s)).
Proof.
  unfold amounts_ok. intros [H1 H2]. destruct e; cbn [dispatch]; try (now split).
  - unfold handleInputChange, validateFromAmount.
    destruct (resolve _); (split; [apply amount_text_clean|exact H2]).
  - destruct (toInputDisabled s); [now split|].
    split; [exact H1|apply amount_text_clean].
  - destruct (submitDisabled s); [now split|].
    unfold handleSubmit, onSubmit. destruct (resolve _); [|now split].
    cbn [fromToken toToken setError with_form].
    destruct (_ =? _)%string; [now split|].
    destruct (PrimFloat.leb _ 0); now split.
  - destruct (swap_timers s) as [|[a b] r]; [now split|].
    split; apply amount_text_empty.
  - destruct (alert_timers s); now split.
Qed.

Lemma reachable_amounts s :
  reachable s -> amounts_ok (form s).
Proof.
  induction 1 as [s0 H|s0 e Hr IH _].
  - unfold mount in H. destruct defaultFromToken, defaultToToken; try discriminate.
    injection H as <-. apply settle_amounts. split; apply amount_text_empty.
  - now apply settle_amounts, dispatch_amounts.
Qed.

(** *** Traces *)

Lemma run_reachable s es :
  reachable s -> Forall (valid_event rawTokenData TOKEN_ICONS_URL) es ->
  reachable (run s es).
Proof.
  intros Hs Hes. revert s Hs. induction Hes as [|e es He _ IH]; intros s Hs; [exact Hs|].
  simpl. apply IH. now apply reach_step.
Qed.

Lemma step_fixed s e : dispatch e s = s -> render s = s -> step s e = s.
Proof. intros Hd Hr. unfold step. rewrite Hd. now apply settle_fixed. Qed.

(** A handler that leaves the dependencies of both effects as they are is
    followed by no effect. *)
Lemma settle_same_deps s s' :
  render s = s -> sync_deps s' = sync_deps s -> token_deps s' = token_deps s ->
  sync_deps_of s' = sync_deps_of s -> token_deps_of s' = token_deps_of s ->
  settle s' = s'.
Proof.
  intros [H1 H2]%fixed_deps E1 E2 E3 E4. apply settle_fixed, render_fixed; congruence.
Qed.

(** While a swap is in flight, no event but the timer ends it. *)
Lemma step_keeps_flight s e c :
  e <> SwapTimer -> swap_timers s = [c] -> isSwapping s = true ->
  swap_timers (step s e) = [c] /\ isSwapping (step s e) = true.
Proof.
  intros He Ht Hs. unfold step. rewrite settle_swap_timers, settle_isSwapping.
  destruct e; cbn [dispatch]; try (now split); try congruence.
  - unfold handleInputChange, validateFromAmount. destruct (resolve _); now split.
  - unfold toInputDisabled. rewrite Hs. now split.
  - rewrite (submitDisabled_swapping s Hs). now split.
  - destruct (alert_timers s); now split.
Qed.

Lemma run_keeps_flight s es c :
  ~ In SwapTimer es -> swap_timers s = [c] -> isSwapping s = true ->
  swap_timers (run s es) = [c] /\ isSwapping (run s es) = true.
Proof.
  revert s. induction es as [|e es IH]; intros s Hn Ht Hs; [now split|].
  simpl. destruct (step_keeps_flight s e c) as [Ht' Hs']; try assumption.
  - intros ->. apply Hn. now left.
  - apply IH; try assumption. intros H. apply Hn. now right.
Qed.

(** *** The claims about the component *)

(** C1.  With a table of two tokens or more, the two tokens of every
    reachable state have different symbols, and so after every event; and
    selecting as "to" token the current "from" token ends with the "from"
    token unchanged and the "to" token the first token of the table whose
    symbol is not that of the "from" token. *)
Theorem tokens_always_differ :
  (2 <= List.length TOKENS)%nat ->
  forall s, reachable s ->
    symbol (fromToken s) <> symbol (toToken s)
    /\ (forall e, valid_event rawTokenData TOKEN_ICONS_URL e ->
          symbol (fromToken (step s e)) <> symbol (toToken (step s e)))
    /\ fromToken (step s (SelectTo (fromToken s))) = fromToken s
    /\ find (fun t => negb (symbol t =? symbol (fromToken s))%string) TOKENS
       = Some (toToken (step s (SelectTo (fromToken s)))).
Proof.
  intros Hl s Hs. pose proof (reachable_distinct s Hl Hs) as Hd.
  split; [exact Hd|]. split.
  { intros e He. apply (reachable_distinct _ Hl). now apply reach_step. }
  unfold step. cbn [dispatch]. unfold handleSetToToken.
  set (s1 := setToToken (fromToken s) s).
  split; [now rewrite settle_fromToken|].
  assert (token_runs s1 = true) as Hr.
  { destruct (token_runs s1) eqn:E; [reflexivity|exfalso].
    apply token_runs_false in E.
    destruct (fixed_deps s (reachable_fixed s Hs)) as [_ Ht].
    change (token_deps s1) with (token_deps s) in E. rewrite Ht in E.
    injection E as E. apply Hd. now rewrite E. }
  rewrite settle_toToken, render_toToken, Hr. unfold reassigned.
  change (fromToken s1) with (fromToken s). change (toToken s1) with (fromToken s).
  rewrite String.eqb_refl.
  destruct (other_token_exists (fromToken s) Hl) as [t Ht]. now rewrite Ht.
Qed.

(** C5.  In every reachable state whose "to" token has the price 0, both
    amount fields are blank, whichever field was driving before, and the
    submit button is disabled. *)
Theorem unavailable_rate_blanks :
  forall s, reachable s ->
  forall p, priceUsd (toToken s) = Some p -> PrimFloat.eqb p 0 = true ->
    watchedFromAmount s = "" /\ watchedToAmount s = "" /\ submitDisabled s = true.
Proof.
  intros s Hs p Hp H0.
  assert (rateError s = true) as Hr.
  { unfold rateError, exchangeRate. rewrite Hp, (is_zero_eqb p H0).
    destruct (priceUsd (fromToken s)); [rewrite andb_false_r|]; reflexivity. }
  destruct (reachable_rate_blank s Hs Hr) as [H1 H2].
  repeat split; try assumption.
  unfold submitDisabled. rewrite Hr. now rewrite !orb_true_r.
Qed.

(** C8.  While a swap is in flight, a submission changes nothing at all in
    the state, the "to" input is disabled, and so is any edit of it. *)
Theorem in_flight_exclusive :
  forall s, reachable s -> isSwapping s = true ->
    step s Submit = s
    /\ toInputDisabled s = true
    /\ forall text, step s (EditTo text) = s.
Proof.
  intros s Hs Hf. pose proof (reachable_fixed s Hs) as Hr. repeat split.
  - apply step_fixed; [|exact Hr]. cbn [dispatch].
    now rewrite (submitDisabled_swapping s Hf).
  - exact Hf.
  - intros text. apply step_fixed; [|exact Hr]. cbn [dispatch].
    unfold toInputDisabled. now rewrite Hf.
Qed.

(** C9, as amended.  An accepted submission sets the in-flight flag; when
    its timer fires, after any events in between, the flag is reset, both
    amount fields are blank, no field is driving, and the message reports the
    "to" amount held when the submission was accepted, rounded to four
    fractional digits. *)
Theorem settlement_completion :
  forall s, reachable s -> accepted s ->
    let s1 := step s Submit in
    isSwapping s1 = true
    /\ fromToken s1 = fromToken s /\ toToken s1 = toToken s
    /\ watchedFromAmount s1 = watchedFromAmount s
    /\ watchedToAmount s1 = watchedToAmount s
    /\ lastUpdatedField s1 = lastUpdatedField s
    /\ forall es, ~ In SwapTimer es ->
         let s2 := step (run s1 es) SwapTimer in
         isSwapping s2 = false
         /\ watchedFromAmount s2 = "" /\ watchedToAmount s2 = ""
         /\ lastUpdatedField s2 = None
         /\ successMessage s2
            = "Swap successful! You received "
              ++ JS.toFixed (JS.parseFloat (watchedToAmount s)) 4
              ++ " " ++ symbol (toToken s).
Proof.
  intros s Hs (Hd & Hn & v & Hv) s1.
  pose proof (reachable_fixed s Hs) as Hr.
  pose proof (reachable_in_flight s Hs) as Hf.
  assert (isSwapping s = false) as Hsw.
  { destruct (isSwapping s) eqn:E; [|reflexivity].
    now rewrite (submitDisabled_swapping s E) in Hd. }
  assert (rateError s = false) as Hrate.
  { unfold submitDisabled in Hd. destruct (rateError s); [|reflexivity].
    now rewrite !orb_true_r in Hd. }
  assert (swap_timers s = []) as Ht.
  { unfold in_flight in Hf. destruct (swap_timers s) as [|c [|c' r]];
      [reflexivity|congruence|contradiction]. }
  set (d := with_timers [(watchedToAmount s, symbol (toToken s))] (alert_timers s)
              (setIsSwapping true (setError None s))).
  assert (dispatch Submit s = d) as Ed.
  { cbn [dispatch]. rewrite Hd. unfold handleSubmit. rewrite Hv. unfold onSubmit.
    cbn [fromToken toToken setError with_form].
    apply String.eqb_neq in Hn. rewrite Hn.
    unfold rateError in Hrate. rewrite Hrate.
    cbn [swap_timers setError with_form]. rewrite Ht. reflexivity. }
  assert (s1 = d) as E1.
  { subst s1. unfold step. rewrite Ed. apply (settle_same_deps s); auto. }
  rewrite E1. do 6 (split; [reflexivity|]).
  intros es Hes s2.
  destruct (run_keeps_flight d es (watchedToAmount s, symbol (toToken s)) Hes)
    as [Ht2 _]; try reflexivity.
  subst s2. unfold step. cbn [dispatch]. rewrite Ht2.
  set (u := swapCompleted _ _).
  assert (cleared u) as Hc by (repeat split).
  destruct (settle_cleared u Hc) as (C1 & C2 & C3).
  rewrite settle_isSwapping, settle_successMessage. repeat split; assumption.
Qed.

(** C10, as amended.  In every reachable state each of the two amount texts
    is empty, or made of digits and at most one dot, or the text that
    [toFixed(8)] gives for a derived value it does not write in fixed
    notation (NaN, an infinity, or a magnitude of 1e21 or more). *)
Theorem amount_texts_shape :
  forall s, reachable s ->
    amount_text (watchedFromAmount s) /\ amount_text (watchedToAmount s).
Proof. intros s Hs. exact (reachable_amounts s Hs). Qed.

End AppProofs.

(** ** Rounding: the error of a product and of a quotient *)

Section Rounding.

Lemma digits2_pos_bounds (m : positive) :
  2 ^ (Z.pos (digits2_pos m) - 1) <= Z.pos m < 2 ^ Z.pos (digits2_pos m).
Proof.
  induction m as [p IH|p IH|]; cbn [digits2_pos].
  - rewrite Pos2Z.inj_succ. replace (Z.succ (Z.pos (digits2_pos p)) - 1)
      with (Z.succ (Z.pos (digits2_pos p) - 1)) by lia.
    rewrite !Z.pow_succ_r by lia. lia.
  - rewrite Pos2Z.inj_succ. replace (Z.succ (Z.pos (digits2_pos p)) - 1)
      with (Z.succ (Z.pos (digits2_pos p) - 1)) by lia.
    rewrite !Z.pow_succ_r by lia. lia.
  - simpl. lia.
Qed.

Lemma Zdigits2_nonneg (x : Z) : 0 <= Zdigits2 x.
Proof. destruct x; simpl; lia. Qed.

Lemma Zdigits2_lower (x : Z) : 0 < x -> 2 ^ (Zdigits2 x - 1) <= x.
Proof. destruct x; try lia. intros _. apply digits2_pos_bounds. Qed.

Lemma Zdigits2_upper (x : Z) : 0 <= x -> x < 2 ^ Zdigits2 x.
Proof. destruct x; try lia; intros _; [simpl; lia|apply digits2_pos_bounds]. Qed.

(** The number of bits of a number below [2 ^ n] is at most [n]. *)
Lemma Zdigits2_le (x n : Z) : 0 <= n -> 0 <= x < 2 ^ n -> Zdigits2 x <= n.
Proof.
  intros Hn [H0 Hx]. destruct (Z.eq_dec x 0) as [->|Hx0]; [simpl; lia|].
  pose proof (Zdigits2_lower x ltac:(lia)) as Hl.
  destruct (Z_le_gt_dec (Zdigits2 x) n) as [|Hgt]; [assumption|exfalso].
  assert (2 ^ n <= 2 ^ (Zdigits2 x - 1)) by (apply Z.pow_le_mono_r; lia). lia.
Qed.

Lemma shr_1_m (r : shr_record) : 0 <= shr_m r -> shr_m (shr_1 r) = shr_m r / 2.
Proof.
  destruct r as [m b c]. cbn [shr_m]. intros H.
  rewrite <- Z.div2_div. destruct m as [|[p|p|]|p]; try reflexivity; lia.
Qed.

Lemma pow2_xO (p : positive) : 2 ^ Z.pos p~0 = 2 ^ Z.pos p * 2 ^ Z.pos p.
Proof. rewrite <- Z.pow_add_r by lia. f_equal. lia. Qed.

Lemma pow2_xI (p : positive) : 2 ^ Z.pos p~1 = 2 * (2 ^ Z.pos p * 2 ^ Z.pos p).
Proof.
  rewrite <- Z.pow_add_r by lia. rewrite <- Z.pow_succ_r by lia. f_equal. lia.
Qed.

Lemma iter_shr_1_m (p : positive) : forall r,
  0 <= shr_m r -> shr_m (iter_pos shr_1 p r) = shr_m r / 2 ^ Z.pos p.
Proof.
  assert (forall q, 0 < 2 ^ Z.pos q) as Hp by (intros q; apply Z.pow_pos_nonneg; lia).
  induction p as [p IH|p IH|]; intros r H; cbn [iter_pos].
  - assert (0 <= shr_m (shr_1 r)) as H1.
    { rewrite shr_1_m by assumption. apply Z.div_pos; lia. }
    assert (0 <= shr_m (iter_pos shr_1 p (shr_1 r))) as H2.
    { rewrite IH by assumption. apply Z.div_pos; [assumption|apply Hp]. }
    rewrite IH, IH, shr_1_m by assumption.
    pose proof (Hp p).
    rewrite !Z.div_div by lia. now rewrite pow2_xI.
  - assert (0 <= shr_m (iter_pos shr_1 p r)) as H2.
    { rewrite IH by assumption. apply Z.div_pos; [assumption|apply Hp]. }
    rewrite IH, IH by assumption.
    pose proof (Hp p).
    rewrite !Z.div_div by lia. now rewrite pow2_xO.
  - rewrite shr_1_m by assumption. reflexivity.
Qed.

(** A shift to the right divides the mantissa, rounding down. *)
Lemma shr_m_spec (r : shr_record) (e n : Z) :
  0 <= shr_m r ->
  shr_m (fst (shr r e n)) = shr_m r / 2 ^ Z.max 0 n
  /\ snd (shr r e n) = e + Z.max 0 n.
Proof.
  intros H. unfold shr. destruct n as [|p|p]; cbn [fst snd].
  - rewrite Z.div_1_r. split; [reflexivity|lia].
  - rewrite iter_shr_1_m by assumption. split; [reflexivity|lia].
  - rewrite Z.div_1_r. split; [reflexivity|lia].
Qed.

Lemma round_nearest_even_bounds (m : Z) (l : location) :
  m <= round_nearest_even m l <= m + 1.
Proof.
  unfold round_nearest_even. destruct l as [|[]]; try lia.
  destruct (Z.even m); lia.
Qed.

(** [binary_round_aux], unfolded: a shift, one step up or none, a second
    shift, and the class of the result. *)
Lemma binary_round_aux_unfold (s : bool) (mx ex : Z) (lx : location) :
  0 <= mx ->
  exists m1,
    let k1 := shift_of (Zdigits2 mx) ex in
    let k2 := shift_of (Zdigits2 m1) (ex + k1) in
    mx / 2 ^ k1 <= m1 <= mx / 2 ^ k1 + 1
    /\ binary_round_aux prec emax s mx ex lx =
       match m1 / 2 ^ k2 with
       | 0 => S754_zero s
       | Z.pos m => if ex + k1 + k2 <=? emax - prec
                    then S754_finite s m (ex + k1 + k2) else S754_infinity s
       | Z.neg _ => S754_nan
       end.
Proof.
  intros H. unfold binary_round_aux, shr_fexp.
  pose proof (shr_m_spec (shr_record_of_loc mx lx) ex
                (fexp prec emax (Zdigits2 mx + ex) - ex)) as S1.
  rewrite shr_record_of_loc_m in S1. specialize (S1 H).
  destruct (shr (shr_record_of_loc mx lx) ex _) as [mrs' e']. cbn [fst snd] in S1.
  destruct S1 as [M1 E1].
  set (m1 := round_nearest_even (shr_m mrs') (loc_of_shr_record mrs')).
  pose proof (round_nearest_even_bounds (shr_m mrs') (loc_of_shr_record mrs')) as B.
  fold m1 in B.
  assert (0 <= shr_m mrs') as H1.
  { rewrite M1. apply Z.div_pos; [assumption|]. apply Z.pow_pos_nonneg; lia. }
  pose proof (shr_m_spec (shr_record_of_loc m1 loc_Exact) e'
                (fexp prec emax (Zdigits2 m1 + e') - e')) as S2.
  rewrite shr_record_of_loc_m in S2. specialize (S2 ltac:(lia)).
  destruct (shr (shr_record_of_loc m1 loc_Exact) e' _) as [mrs'' e'']. cbn [fst snd] in S2.
  destruct S2 as [M2 E2].
  exists m1. cbn zeta. unfold shift_of. rewrite <- M1, <- E1. split; [exact B|].
  rewrite <- M2, <- E2. reflexivity.
Qed.

End Rounding.

Section RoundingError.

(** The mantissa after the two shifts is within two units of the last place
    of the number rounded, here the fraction [N / D] taken at the exponent 0
    of the first mantissa [mx]. *)
Lemma round_error (mx k1 k2 m1 N D : Z) :
  0 <= mx -> 0 <= k1 -> 0 <= k2 ->
  mx / 2 ^ k1 <= m1 <= mx / 2 ^ k1 + 1 ->
  0 < D -> mx * D <= N < (mx + 1) * D ->
  N - 2 * 2 ^ (k1 + k2) * D <= m1 / 2 ^ k2 * 2 ^ (k1 + k2) * D
  /\ m1 / 2 ^ k2 * 2 ^ (k1 + k2) * D <= N + 2 * 2 ^ (k1 + k2) * D.
Proof.
  intros Hmx Hk1 Hk2 Hm1 HD HN.
  rewrite Z.pow_add_r by assumption.
  assert (0 < 2 ^ k1) as P1 by (apply Z.pow_pos_nonneg; lia).
  assert (0 < 2 ^ k2) as P2 by (apply Z.pow_pos_nonneg; lia).
  set (K1 := 2 ^ k1) in *. set (K2 := 2 ^ k2) in *.
  pose proof (Z.mul_div_le mx K1 P1) as F1.
  pose proof (Z.mul_succ_div_gt mx K1 P1) as F2.
  set (f := mx / K1) in *.
  assert (0 <= f) as Hf by (apply Z.div_pos; lia).
  pose proof (Z.mul_div_le m1 K2 P2) as G1.
  pose proof (Z.mul_succ_div_gt m1 K2 P2) as G2.
  set (m := m1 / K2) in *.
  assert (0 <= m) as Hm by (apply Z.div_pos; lia).
  assert (m * (K1 * K2) <= mx + K1) as U.
  { assert (m * K2 * K1 <= m1 * K1) by (apply Z.mul_le_mono_nonneg_r; lia). nia. }
  assert (mx + 1 - K1 * K2 <= m * (K1 * K2)) as L.
  { assert ((m1 - K2 + 1) * K1 <= m * K2 * K1).
    { apply Z.mul_le_mono_nonneg_r; lia. }
    assert ((f - K2 + 1) * K1 <= (m1 - K2 + 1) * K1).
    { apply Z.mul_le_mono_nonneg_r; lia. }
    nia. }
  assert (1 <= K1 * K2) as HK by nia.
  split.
  - assert ((mx + 1 - K1 * K2) * D <= m * (K1 * K2) * D)
      by (apply Z.mul_le_mono_nonneg_r; lia). nia.
  - assert (m * (K1 * K2) * D <= (mx + K1) * D)
      by (apply Z.mul_le_mono_nonneg_r; lia).
    assert (K1 * D <= K1 * K2 * D) by nia. nia.
Qed.

Lemma shift_of_eq (d e : Z) :
  shift_of d e = Z.max 0 (Z.max (d - prec) (emin - e)).
Proof. unfold shift_of, fexp, SpecFloat.emin, emin. lia. Qed.

(** The two shifts together: what the size of the mantissa and the least
    exponent ask for, and one more at most. *)
Lemma shifts_bound (mx ex m1 : Z) :
  0 <= mx ->
  mx / 2 ^ shift_of (Zdigits2 mx) ex <= m1 <= mx / 2 ^ shift_of (Zdigits2 mx) ex + 1 ->
  let k1 := shift_of (Zdigits2 mx) ex in
  let k2 := shift_of (Zdigits2 m1) (ex + k1) in
  0 <= k1 /\ 0 <= k2
  /\ k1 + k2 <= Z.max 0 (Z.max (Zdigits2 mx - prec) (emin - ex)) + 1.
Proof.
  intros Hmx Hm1 k1 k2.
  assert (0 <= k1) as Hk1 by (unfold k1, shift_of; lia).
  assert (0 <= k2) as Hk2 by (unfold k2, shift_of; lia).
  split; [assumption|]. split; [assumption|].
  assert (k1 = Z.max 0 (Z.max (Zdigits2 mx - prec) (emin - ex))) as E1
    by apply shift_of_eq.
  assert (0 < 2 ^ k1) as P1 by (apply Z.pow_pos_nonneg; lia).
  assert (mx / 2 ^ k1 < 2 ^ prec) as Hq.
  { apply Z.div_lt_upper_bound; [assumption|].
    rewrite <- Z.pow_add_r by (unfold prec; lia).
    eapply Z.lt_le_trans; [apply (Zdigits2_upper mx Hmx)|].
    apply Z.pow_le_mono_r; lia. }
  assert (0 <= mx / 2 ^ k1) by (apply Z.div_pos; lia).
  assert (Zdigits2 m1 <= prec + 1) as Hd.
  { apply Zdigits2_le; [unfold prec; lia|]. fold k1 in Hm1.
    rewrite Z.pow_add_r by (unfold prec; lia). change (2 ^ 1) with 2. lia. }
  assert (k2 <= 1).
  { unfold k2. rewrite shift_of_eq. lia. }
  lia.
Qed.

End RoundingError.

Section ExactValues.

Local Open Scope Q_scope.

Lemma pow2_pos (e : Z) : 0 < pow2 e.
Proof. apply Qpower_0_lt. reflexivity. Qed.

Lemma pow2_add (a b : Z) : pow2 (a + b) == pow2 a * pow2 b.
Proof. apply Qpower_plus. discriminate. Qed.

Lemma pow2_le (a b : Z) : (a <= b)%Z -> pow2 a <= pow2 b.
Proof. intros H. apply Qpower_le_compat_l; [assumption|discriminate]. Qed.

Lemma pow2_lt (a b : Z) : (a < b)%Z -> pow2 a < pow2 b.
Proof. intros H. apply Qpower_lt_compat_l; [assumption|reflexivity]. Qed.

Lemma pow2_Z (k : Z) : (0 <= k)%Z -> pow2 k == inject_Z (2 ^ k).
Proof. intros H. unfold pow2. now rewrite Zpower_Qpower. Qed.

Lemma pow2_succ (a : Z) : pow2 (a + 1) == 2 * pow2 a.
Proof. rewrite pow2_add. change (pow2 1) with 2. ring. Qed.

End ExactValues.

Section RoundedValues.

Local Open Scope Q_scope.

Lemma scaled_error (c t u : Q) : 0 < c -> - u <= t <= u -> Qabs (c * t) <= c * u.
Proof.
  intros Hc [H1 H2]. apply Qabs_Qle_condition. split.
  - setoid_replace (- (c * u)) with (c * - u) by ring. now apply Qmult_le_l.
  - now apply Qmult_le_l.
Qed.

(** What [binary_round_aux] returns for the mantissa [mx] at the exponent
    [ex], when the number to round is [N / D * 2 ^ ex] with
    [mx <= N / D < mx + 1]: a mantissa and an exponent whose value is within
    two units of the last place of that number, the exponent being bounded
    by the format and the size of [mx]. *)
Lemma binary_round_aux_error (s : bool) (mx ex : Z) (lx : location) (N D : Z) :
  (0 <= mx)%Z -> (0 < D)%Z -> (mx * D <= N < (mx + 1) * D)%Z ->
  exists mf e,
    (0 <= mf)%Z
    /\ binary_round_aux prec emax s mx ex lx =
       match mf with
       | 0%Z => S754_zero s
       | Z.pos m => if (e <=? emax - prec)%Z then S754_finite s m e else S754_infinity s
       | Z.neg _ => S754_nan
       end
    /\ Qabs (inject_Z mf * pow2 e - inject_Z N / inject_Z D * pow2 ex) <= 2 * pow2 e
    /\ (e <= Z.max ex (Z.max (Zdigits2 mx + ex - prec) emin) + 1)%Z.
Proof.
  intros Hmx HD HN.
  destruct (binary_round_aux_unfold s mx ex lx Hmx) as (m1 & Hm1 & Hr).
  cbn zeta in Hr.
  destruct (shifts_bound mx ex m1 Hmx Hm1) as (Hk1 & Hk2 & Hk).
  set (k1 := shift_of (Zdigits2 mx) ex) in *.
  set (k2 := shift_of (Zdigits2 m1) (ex + k1)) in *.
  assert (0 < 2 ^ k1)%Z as P1 by (apply Z.pow_pos_nonneg; lia).
  assert (0 < 2 ^ k2)%Z as P2 by (apply Z.pow_pos_nonneg; lia).
  assert (0 <= mx / 2 ^ k1)%Z by (apply Z.div_pos; lia).
  exists (m1 / 2 ^ k2)%Z, (ex + k1 + k2)%Z.
  split; [apply Z.div_pos; lia|]. split; [exact Hr|]. split; [|lia].
  destruct (round_error mx k1 k2 m1 N D Hmx Hk1 Hk2 Hm1 HD HN) as [L U].
  set (mf := (m1 / 2 ^ k2)%Z) in *.
  set (K := (2 ^ (k1 + k2))%Z) in *.
  assert (pow2 (ex + k1 + k2) == pow2 ex * inject_Z K) as EK.
  { replace (ex + k1 + k2)%Z with (ex + (k1 + k2))%Z by lia.
    rewrite pow2_add, (pow2_Z (k1 + k2)) by lia. reflexivity. }
  assert (0 < inject_Z D) as QD by (change 0 with (inject_Z 0); now rewrite <- Zlt_Qlt).
  rewrite EK.
  setoid_replace (inject_Z mf * (pow2 ex * inject_Z K)
                  - inject_Z N / inject_Z D * pow2 ex)
    with (pow2 ex / inject_Z D * (inject_Z (mf * K * D) - inject_Z N))
    by (rewrite !inject_Z_mult; field; lra).
  setoid_replace (2 * (pow2 ex * inject_Z K))
    with (pow2 ex / inject_Z D * inject_Z (2 * K * D))
    by (rewrite !inject_Z_mult; change (inject_Z 2) with 2; field; lra).
  apply scaled_error.
  - apply Qlt_shift_div_l; [assumption|]. rewrite Qmult_0_l. apply pow2_pos.
  - assert (- (2 * K * D) <= mf * K * D + - N)%Z as L' by lia.
    assert (mf * K * D + - N <= 2 * K * D)%Z as U' by lia.
    rewrite Zle_Qle, inject_Z_plus, !inject_Z_opp in L'.
    rewrite Zle_Qle, inject_Z_plus, !inject_Z_opp in U'.
    unfold Qminus. split; assumption.
Qed.


Lemma finite_result (s : bool) (mf e : Z) (sp : bool) (mp : positive) (ep : Z) :
  match mf with
  | 0%Z => S754_zero s
  | Z.pos m => if (e <=? emax - prec)%Z then S754_finite s m e else S754_infinity s
  | Z.neg _ => S754_nan
  end = S754_finite sp mp ep ->
  mf = Z.pos mp /\ e = ep /\ s = sp.
Proof.
  destruct mf; try discriminate. destruct (e <=? emax - prec)%Z; try discriminate.
  intros [= -> -> ->]. auto.
Qed.

(** The product of two positive finite numbers, when it is finite: within
    two units of its last place of the exact product. *)
Lemma SFmul_error (ma : positive) (ea : Z) (mb : positive) (eb : Z)
      (sp : bool) (mp : positive) (ep : Z) :
  SFmul prec emax (S754_finite false ma ea) (S754_finite false mb eb)
  = S754_finite sp mp ep ->
  sp = false
  /\ Qabs (inject_Z (Z.pos mp) * pow2 ep
           - (inject_Z (Z.pos ma) * pow2 ea) * (inject_Z (Z.pos mb) * pow2 eb))
     <= 2 * pow2 ep.
Proof.
  cbn [SFmul xorb]. intros H.
  destruct (binary_round_aux_error false (Z.pos (ma * mb)) (ea + eb) loc_Exact
              (Z.pos (ma * mb)) 1) as (mf & e & _ & Hr & Hv & _); try lia.
  rewrite Hr in H. apply finite_result in H as (-> & -> & <-).
  split; [reflexivity|].
  setoid_replace ((inject_Z (Z.pos ma) * pow2 ea) * (inject_Z (Z.pos mb) * pow2 eb))
    with (inject_Z (Z.pos (ma * mb)) / inject_Z 1 * pow2 (ea + eb)); [exact Hv|].
  rewrite pow2_add, Pos2Z.inj_mul, inject_Z_mult. change (inject_Z 1) with 1. field.
Qed.

Lemma Zdigits2_pos_lower (m : positive) : pow2 (Zdigits2 (Z.pos m) - 1) <= inject_Z (Z.pos m).
Proof.
  pose proof (Zdigits2_lower (Z.pos m) eq_refl) as H.
  pose proof (Zdigits2_nonneg (Z.pos m)).
  assert (0 < Zdigits2 (Z.pos m))%Z by (simpl; lia).
  rewrite pow2_Z by lia. now rewrite <- Zle_Qle.
Qed.

Lemma Zdigits2_pos_upper (m : positive) : inject_Z (Z.pos m) < pow2 (Zdigits2 (Z.pos m)).
Proof.
  pose proof (Zdigits2_upper (Z.pos m) ltac:(lia)) as H.
  rewrite pow2_Z by (simpl; lia). now rewrite <- Zlt_Qlt.
Qed.

(** The quotient that [SFdiv_core_binary] prepares. *)
Lemma SFdiv_core_binary_spec (m1 : positive) (e1 : Z) (m2 : positive) (e2 : Z) :
  exists q e' l N,
    SFdiv_core_binary prec emax (Z.pos m1) e1 (Z.pos m2) e2 = (q, e', l)
    /\ (0 <= q)%Z
    /\ (q * Z.pos m2 <= N < (q + 1) * Z.pos m2)%Z
    /\ inject_Z N / inject_Z (Z.pos m2) * pow2 e'
       == (inject_Z (Z.pos m1) * pow2 e1) / (inject_Z (Z.pos m2) * pow2 e2)
    /\ (e' <= fexp prec emax (Zdigits2 (Z.pos m1) + e1 - (Zdigits2 (Z.pos m2) + e2)))%Z.
Proof.
  unfold SFdiv_core_binary.
  set (e' := Z.min _ _). set (s := (e1 - e2 - e')%Z).
  set (m' := match s with Z.pos _ => _ | _ => _ end).
  assert (0 <= s)%Z as Hs by (unfold s, e'; lia).
  assert (m' = Z.pos m1 * 2 ^ s)%Z as Em.
  { unfold m'. destruct s; [simpl; lia|apply Z.shiftl_mul_pow2; lia|lia]. }
  assert (0 <= m')%Z as Hm.
  { rewrite Em. apply Z.mul_nonneg_nonneg; [lia|]. apply Z.pow_nonneg. lia. }
  pose proof (Z.div_pos m' (Z.pos m2) Hm eq_refl) as Hq.
  pose proof (Z.mul_div_le m' (Z.pos m2) eq_refl) as D1.
  pose proof (Z.mul_succ_div_gt m' (Z.pos m2) eq_refl) as D2.
  unfold Z.div in Hq, D1, D2.
  destruct (Z.div_eucl m' (Z.pos m2)) as [q r]. cbn [fst] in *.
  exists q, e', (new_location (Z.pos m2) r), m'.
  split; [reflexivity|]. split; [exact Hq|]. split; [lia|]. split; [|unfold e'; lia].
  rewrite Em, inject_Z_mult, <- pow2_Z by assumption.
  assert (pow2 e1 == pow2 s * pow2 e' * pow2 e2) as E.
  { rewrite <- !pow2_add. unfold s. now replace (e1 - e2 - e' + e' + e2)%Z with e1 by lia. }
  rewrite E. pose proof (pow2_pos e2). pose proof (pow2_pos e').
  assert (0 < inject_Z (Z.pos m2)) by reflexivity.
  field. split; lra.
Qed.

(** The quotient of two positive finite numbers: never NaN; zero, finite or
    an infinity as the rounded mantissa and the exponent say; the rounded
    value within two units of the last place of the exact quotient, and that
    unit at most the quotient over [2 ^ 51], or twice the least unit of the
    format. *)
Lemma SFdiv_error (m1 : positive) (e1 : Z) (m2 : positive) (e2 : Z) :
  let X := (inject_Z (Z.pos m1) * pow2 e1) / (inject_Z (Z.pos m2) * pow2 e2) in
  exists mf e,
    (0 <= mf)%Z
    /\ SFdiv prec emax (S754_finite false m1 e1) (S754_finite false m2 e2) =
       match mf with
       | 0%Z => S754_zero false
       | Z.pos m => if (e <=? emax - prec)%Z then S754_finite false m e
                    else S754_infinity false
       | Z.neg _ => S754_nan
       end
    /\ Qabs (inject_Z mf * pow2 e - X) <= 2 * pow2 e
    /\ (pow2 e <= X * (1 # 2251799813685248) \/ pow2 e <= 2 * pow2 emin).
Proof.
  intros X. cbn [SFdiv xorb].
  destruct (SFdiv_core_binary_spec m1 e1 m2 e2) as (q & e' & l & N & Ec & Hq & HN & EX & He').
  rewrite Ec.
  destruct (binary_round_aux_error false q e' l N (Z.pos m2) Hq eq_refl HN)
    as (mf & e & Hmf & Hr & Hv & He).
  exists mf, e. split; [exact Hmf|]. split; [exact Hr|].
  fold X in EX. rewrite EX in Hv. split; [exact Hv|].
  set (d1 := Zdigits2 (Z.pos m1)) in *. set (d2 := Zdigits2 (Z.pos m2)) in *.
  set (L := (d1 + e1 - (d2 + e2))%Z) in *.
  assert (0 < X) as HX.
  { unfold X. pose proof (pow2_pos e1). pose proof (pow2_pos e2).
    assert (0 < inject_Z (Z.pos m1)) by reflexivity.
    assert (0 < inject_Z (Z.pos m2)) by reflexivity.
    apply Qlt_shift_div_l; [nra|]. nra. }
  assert (pow2 (L - 1) <= X) as HL.
  { unfold X. pose proof (Zdigits2_pos_lower m1) as A1.
    pose proof (Zdigits2_pos_upper m2) as A2. fold d1 in A1. fold d2 in A2.
    pose proof (pow2_pos e1). pose proof (pow2_pos e2). pose proof (pow2_pos (d2 + e2)).
    assert (0 < inject_Z (Z.pos m2)) by reflexivity.
    apply Qle_shift_div_l; [nra|].
    assert (pow2 (d1 - 1) * pow2 e1 == pow2 (L - 1) * pow2 (d2 + e2)) as E.
    { rewrite <- !pow2_add. unfold L.
      now replace (d1 + e1 - (d2 + e2) - 1 + (d2 + e2))%Z with (d1 - 1 + e1)%Z by lia. }
    assert (pow2 (d2 + e2) == pow2 d2 * pow2 e2) as E2 by apply pow2_add.
    pose proof (pow2_pos (L - 1)). pose proof (pow2_pos (d1 - 1)).
    assert (pow2 (L - 1) * (inject_Z (Z.pos m2) * pow2 e2)
            <= pow2 (L - 1) * pow2 (d2 + e2)).
    { rewrite E2. apply Qmult_le_l; [assumption|].
      apply Qmult_le_compat_r; [now apply Qlt_le_weak|now apply Qlt_le_weak]. }
    assert (pow2 (d1 - 1) * pow2 e1 <= inject_Z (Z.pos m1) * pow2 e1).
    { apply Qmult_le_compat_r; [assumption|now apply Qlt_le_weak]. }
    lra. }
  assert (inject_Z q * pow2 e' <= X) as HqX.
  { rewrite <- EX. pose proof (pow2_pos e').
    assert (0 < inject_Z (Z.pos m2)) as P2 by reflexivity.
    assert (inject_Z q <= inject_Z N / inject_Z (Z.pos m2)).
    { apply Qle_shift_div_l; [exact P2|].
      rewrite <- inject_Z_mult, <- Zle_Qle. lia. }
    nra. }
  assert (forall a, pow2 (a - 51) == pow2 a * (1 # 2251799813685248)) as S51.
  { intros a. unfold Z.sub. rewrite pow2_add. reflexivity. }
  assert (pow2 (emin + 1) == 2 * pow2 emin) as Smin by apply pow2_succ.
  assert (e <= emin + 1 \/ e <= L - 1 - 51 \/ (0 < q /\ e <= Zdigits2 q - 1 + e' - 51))%Z
    as [C|[C|[Hq0 C]]].
  { assert (e' <= Z.max (L - prec) emin)%Z as He'' by exact He'.
    change prec with 53%Z in *.
    destruct (Z.eq_dec q 0) as [->|Hq0];
      [change (Zdigits2 0) with 0%Z in He; clear - He He''
      |clear - He He'' Hq Hq0]; lia. }
  - right. rewrite <- Smin. now apply pow2_le.
  - left. eapply Qle_trans; [apply pow2_le, C|]. rewrite S51.
    apply Qmult_le_compat_r; [exact HL|discriminate].
  - left. eapply Qle_trans; [apply pow2_le, C|]. rewrite S51.
    apply Qmult_le_compat_r; [|discriminate].
    eapply Qle_trans; [|exact HqX]. rewrite pow2_add.
    apply Qmult_le_compat_r; [|apply Qlt_le_weak, pow2_pos].
    destruct q as [|qp|qp]; try lia. apply Zdigits2_pos_lower.
Qed.

End RoundedValues.

Section RoundTrip.

Local Open Scope Q_scope.

Lemma valid_mantissa (x : float) (s : bool) (m : positive) (e : Z) :
  Prim2SF x = S754_finite s m e -> inject_Z (Z.pos m) < pow2 prec.
Proof.
  intros H. pose proof (Prim2SF_valid x) as V. rewrite H in V.
  unfold valid_binary, bounded, canonical_mantissa in V.
  apply andb_prop in V as [V _]. apply Z.eqb_eq in V.
  assert (Zdigits2 (Z.pos m) <= prec)%Z as Hd.
  { unfold fexp in V. change (Zdigits2 (Z.pos m)) with (Z.pos (digits2_pos m)). lia. }
  eapply Qlt_le_trans; [apply Zdigits2_pos_upper|]. now apply pow2_le.
Qed.

Lemma normal_mantissa (m : positive) :
  (Z.pos (digits2_pos m) =? prec)%Z = true -> pow2 (prec - 1) <= inject_Z (Z.pos m).
Proof.
  intros H%Z.eqb_eq. rewrite <- H. apply (Zdigits2_pos_lower m).
Qed.

(** [x <= y] on floats is [<=] on their exact values, for a positive finite
    [x] and a positive normal [y]. *)
Lemma leb_exact (x y : float) (mx : positive) (ex : Z) (my : positive) (ey : Z) :
  Prim2SF x = S754_finite false mx ex -> Prim2SF y = S754_finite false my ey ->
  (Z.pos (digits2_pos my) =? prec)%Z = true ->
  PrimFloat.leb x y = true -> exact_value x <= exact_value y.
Proof.
  intros Hx Hy Hn H. pose proof (valid_mantissa x _ _ _ Hx) as Vx.
  pose proof (normal_mantissa my Hn) as Vy.
  rewrite leb_spec, Hx, Hy in H. unfold exact_value. rewrite Hx, Hy. cbn [SF2Q].
  rewrite !Qmult_1_l.
  unfold SFleb, SFcompare in H.
  pose proof (pow2_pos ex). pose proof (pow2_pos ey).
  destruct (ex ?= ey)%Z eqn:E.
  - apply Z.compare_eq in E. subst ey.
    assert (Z.pos mx <= Z.pos my)%Z as Hm.
    { change (Pos.compare_cont Eq mx my) with (mx ?= my)%positive in H.
      destruct (mx ?= my)%positive eqn:Ec; try discriminate.
      - apply Pos.compare_eq in Ec. subst. lia.
      - assert (mx < my)%positive as Hlt by exact Ec. clear - Hlt. lia. }
    rewrite Zle_Qle in Hm. apply Qmult_le_compat_r; [assumption|now apply Qlt_le_weak].
  - assert (ex < ey)%Z as Hlt by exact E.
    assert (pow2 prec * pow2 ex <= pow2 (prec - 1) * pow2 ey).
    { rewrite <- !pow2_add. apply pow2_le. lia. }
    assert (inject_Z (Z.pos mx) * pow2 ex <= pow2 prec * pow2 ex).
    { apply Qmult_le_compat_r; [now apply Qlt_le_weak|now apply Qlt_le_weak]. }
    assert (pow2 (prec - 1) * pow2 ey <= inject_Z (Z.pos my) * pow2 ey).
    { apply Qmult_le_compat_r; [assumption|now apply Qlt_le_weak]. }
    lra.
  - discriminate.
Qed.

Lemma ltb_0_guards (x : float) :
  PrimFloat.ltb 0 x = true -> JS.isNaN x = false /\ PrimFloat.leb x 0 = false.
Proof.
  intros H. unfold JS.isNaN. split.
  - apply not_nan_spec. destruct (ltb_0_spec x H) as [(m & e & ->)| ->]; discriminate.
  - rewrite leb_spec. change (Prim2SF 0) with (S754_zero false).
    destruct (ltb_0_spec x H) as [(m & e & ->)| ->]; reflexivity.
Qed.

Lemma classify_normal (x : float) :
  classify x = PNormal ->
  exists m e, Prim2SF x = S754_finite false m e
              /\ (Z.pos (digits2_pos m) =? prec)%Z = true.
Proof.
  rewrite classify_spec. unfold SF64classify, SFclassify.
  destruct (Prim2SF x) as [[]|[]| |[] m e]; try discriminate;
    destruct (Z.pos (digits2_pos m) =? prec)%Z eqn:E; try discriminate.
  intros _. now exists m, e.
Qed.

Lemma normal_guards (x : float) :
  classify x = PNormal -> JS.isNaN x = false /\ PrimFloat.leb x 0 = false.
Proof.
  intros (m & e & H & _)%classify_normal. apply ltb_0_guards.
  rewrite ltb_spec, H. reflexivity.
Qed.

(** A finite product of a positive finite number has a finite second factor. *)
Lemma SFmul_finite_r (ma : positive) (ea : Z) (y : spec_float) (mp : positive) (ep : Z) :
  sf_nonneg y = true ->
  SFmul prec emax (S754_finite false ma ea) y = S754_finite false mp ep ->
  exists mb eb, y = S754_finite false mb eb.
Proof.
  destruct y as [[]|[]| |[] mb eb]; cbn [SFmul sf_nonneg negb xorb];
    try discriminate. intros _ _. now exists mb, eb.
Qed.

(** *** The round trip of the converter *)

(** C2, as amended.  For every amount with [0 < amount <= 1e8] and every
    positive rate for which the forward result [amount * adjustedRate] is a
    normal number (it neither overflows nor underflows), converting forward
    and then in reverse with the same rate gives a finite number whose exact
    value is within 1e-6 of that of the amount.  The converter reads its
    argument through [parseFloat], which is assumed to give back the two
    numbers that are passed to it. *)
Theorem round_trip (amount rate : float) :
  let forward := calculateAmount amount rate false in
  let reverse := calculateAmount forward rate true in
  PrimFloat.ltb 0 amount = true ->
  PrimFloat.leb amount 100000000 = true ->
  PrimFloat.ltb 0 rate = true ->
  classify forward = PNormal ->
  JS.parseFloat (JS.toString amount) = amount ->
  JS.parseFloat (JS.toString forward) = forward ->
  within reverse amount.
Proof.
  intros forward reverse Ha Hb Hr Hn Ra Rf.
  destruct (ltb_0_guards amount Ha) as [Ga1 Ga2].
  destruct (ltb_0_guards rate Hr) as [_ Gr].
  destruct (normal_guards forward Hn) as [Gf1 Gf2].
  set (adj := (rate * (1 - SLIPPAGE_RATE))%float).
  assert (forward = (amount * adj)%float) as Ef.
  { unfold forward, calculateAmount. now rewrite Ra, Ga1, Ga2, Gr. }
  assert (reverse = (forward / adj)%float) as Er.
  { unfold reverse, calculateAmount. now rewrite Rf, Gf1, Gf2, Gr. }
  (* the shapes of the four numbers *)
  destruct (classify_normal forward Hn) as (mp & ep & Sp & Np).
  assert (exists ma ea, Prim2SF amount = S754_finite false ma ea) as (ma & ea & Sa).
  { destruct (ltb_0_spec amount Ha) as [H|H]; [exact H|exfalso].
    rewrite leb_spec, H in Hb. discriminate. }
  assert (sf_nonneg (Prim2SF adj) = true) as Nadj.
  { unfold adj. rewrite mul_spec. apply SFmul_nonneg; [now apply leb_false_nonneg|reflexivity]. }
  assert (exists mb eb, Prim2SF adj = S754_finite false mb eb) as (mb & eb & Sb).
  { apply (SFmul_finite_r ma ea _ mp ep Nadj).
    rewrite <- Sa, <- Sp, Ef. symmetry. apply mul_spec. }
  (* the exact values *)
  set (A := inject_Z (Z.pos ma) * pow2 ea).
  set (B := inject_Z (Z.pos mb) * pow2 eb).
  set (P := inject_Z (Z.pos mp) * pow2 ep).
  assert (0 < B) as HB.
  { unfold B. pose proof (pow2_pos eb). assert (0 < inject_Z (Z.pos mb)) by reflexivity. nra. }
  assert (0 < A) as HA.
  { unfold A. pose proof (pow2_pos ea). assert (0 < inject_Z (Z.pos ma)) by reflexivity. nra. }
  assert (A <= 100000000) as HA8.
  { pose proof (leb_exact amount 100000000 ma ea _ _ Sa eq_refl eq_refl Hb) as H.
    unfold exact_value in H. rewrite Sa in H. cbn [SF2Q] in H. fold A in H.
    setoid_replace (1 * inject_Z (Z.pos ma) * pow2 ea) with A in H by (unfold A; ring).
    eapply Qle_trans; [exact H|]. vm_compute. discriminate. }
  (* the product *)
  assert (Qabs (P - A * B) <= 2 * pow2 ep) as Mul.
  { apply (SFmul_error ma ea mb eb false mp ep).
    rewrite <- Sa, <- Sb, <- Sp, Ef. symmetry. apply mul_spec. }
  assert (pow2 ep * 4503599627370496 <= P) as Nor.
  { unfold P. pose proof (normal_mantissa mp Np) as H. pose proof (pow2_pos ep).
    change (pow2 (prec - 1)) with 4503599627370496 in H. nra. }
  (* the quotient *)
  destruct (SFdiv_error mp ep mb eb) as (mf & e & Hmf & Sr & Div & Ulp).
  fold P B in Div, Ulp. set (X := P / B) in *.
  assert (Prim2SF reverse
          = match mf with
            | 0%Z => S754_zero false
            | Z.pos m => if (e <=? emax - prec)%Z then S754_finite false m e
                         else S754_infinity false
            | Z.neg _ => S754_nan
            end) as Sre.
  { rewrite Er, div_spec, Sp, Sb. exact Sr. }
  assert (X * B == P) as XB by (unfold X; field; lra).
  assert (Qabs (X - A) <= X * (1 # 2251799813685248)) as Near.
  { setoid_replace (X - A) with (/ B * (P - A * B)) by (unfold X; field; lra).
    setoid_replace (X * (1 # 2251799813685248))
      with (/ B * (P * (1 # 2251799813685248))) by (unfold X; field; lra).
    apply scaled_error; [now apply Qinv_lt_0_compat|].
    apply Qabs_Qle_condition. eapply Qle_trans; [exact Mul|]. lra. }
  apply Qabs_Qle_condition in Near. apply Qabs_Qle_condition in Div.
  assert (pow2 emin <= 1 # 1000000000) as Tiny.
  { eapply Qle_trans; [apply (pow2_le emin (-30)); vm_compute; discriminate|].
    vm_compute. discriminate. }
  assert (1 <= pow2 e -> False) as Small.
  { intros H. destruct Ulp; lra. }
  assert (0 < X) as HX.
  { pose proof (pow2_pos ep). apply Qlt_shift_div_l; [exact HB|]. lra. }
  pose proof (pow2_pos e) as He.
  assert (forall R, - (2 * pow2 e) <= R - X <= 2 * pow2 e ->
                    - (1 # 1000000) <= R - A <= 1 # 1000000) as Close.
  { clearbody X A. intros R HR. destruct Ulp; lra. }
  unfold within, finite, exact_value. rewrite Sre, Sa. cbn [SF2Q].
  rewrite !Qmult_1_l. fold A.
  destruct mf as [|m|m]; [| |lia].
  - do 2 (split; [reflexivity|]). cbn [SF2Q].
    apply Qabs_Qle_condition, Close.
    change (inject_Z 0) with 0 in Div. rewrite Qmult_0_l in Div. exact Div.
  - destruct (e <=? emax - prec)%Z eqn:Ee.
    + do 2 (split; [reflexivity|]). cbn [SF2Q]. rewrite !Qmult_1_l.
      apply Qabs_Qle_condition, Close. exact Div.
    + exfalso. apply Small. apply Z.leb_gt in Ee.
      change 1 with (pow2 0). apply pow2_le. unfold emax, prec in Ee. lia.
Qed.

Lemma round_trip_witness :
  PrimFloat.ltb 0 10 = true
  /\ PrimFloat.leb 10 100000000 = true
  /\ PrimFloat.ltb 0 (exchangeRate token_A token_B) = true
  /\ within (calculateAmount
               (calculateAmount 10 (exchangeRate token_A token_B) false)
               (exchangeRate token_A token_B) true) 10.
Proof.
  assert (PrimFloat.ltb 0 10 = true) as H1 by reflexivity.
  assert (PrimFloat.leb 10 100000000 = true) as H2 by reflexivity.
  assert (PrimFloat.ltb 0 (exchangeRate token_A token_B) = true) as H3
    by (vm_compute; reflexivity).
  assert (classify (calculateAmount 10 (exchangeRate token_A token_B) false) = PNormal)
    as H4 by (vm_compute; reflexivity).
  assert (JS.parseFloat (JS.toString 10) = 10%float) as H5 by (vm_compute; reflexivity).
  assert (JS.parseFloat
            (JS.toString (calculateAmount 10 (exchangeRate token_A token_B) false))
          = calculateAmount 10 (exchangeRate token_A token_B) false) as H6
    by (vm_compute; reflexivity).
  exact (conj H1 (conj H2 (conj H3
           (round_trip 10 (exchangeRate token_A token_B) H1 H2 H3 H4 H5 H6)))).
Defined.

(** C2 as stated fails.  At the rate 3 the amount 1.3e22 comes back 2097152
    too large; and at a positive rate of 1e-320 the forward result of 0.0001
    underflows to 0, from which the reverse conversion returns 0. *)
Lemma round_trip_fails :
  (let rate := exchangeRate token_C token_B in
   let forward := calculateAmount large_amount rate false in
   let reverse := calculateAmount forward rate true in
   PrimFloat.ltb 0 large_amount = true
   /\ rate = 3%float
   /\ finite forward = true /\ finite reverse = true
   /\ (exact_value reverse - exact_value large_amount == 2097152)%Q
   /\ ~ within reverse large_amount)
  /\ (let rate := exchangeRate token_D token_B in
      let forward := calculateAmount small_amount rate false in
      let reverse := calculateAmount forward rate true in
      PrimFloat.ltb 0 small_amount = true
      /\ PrimFloat.ltb 0 rate = true
      /\ forward = 0%float /\ reverse = 0%float
      /\ ~ within reverse small_amount).
Proof.
  cbv zeta. split.
  - do 4 (split; [vm_compute; reflexivity|]). split.
    + vm_compute. reflexivity.
    + intros (_ & _ & H). vm_compute in H. apply H. reflexivity.
  - do 4 (split; [vm_compute; reflexivity|]).
    intros (_ & _ & H). vm_compute in H. apply H. reflexivity.
Qed.

End RoundTrip.

(** ** The claims about the pure functions *)

(** C6, as amended.  The resolver returns the quotient of the two prices
    when both are defined, the "from" price is a number other than 0 and
    the "to" price is positive; in every other case it returns 0.  It is a
    total function; its result is NaN only when both prices are infinite
    (and it is an infinity when the quotient overflows). *)
Theorem exchangeRate_contract (f t : Token) :
  (forall pf pt, priceUsd f = Some pf -> priceUsd t = Some pt ->
     JS.truthy pf = true -> PrimFloat.ltb 0 pt = true ->
     exchangeRate f t = (pf / pt)%float)
  /\ ((forall pf pt, priceUsd f = Some pf -> priceUsd t = Some pt ->
         JS.truthy pf = true -> PrimFloat.ltb 0 pt = false) ->
      exchangeRate f t = 0%float)
  /\ (PrimFloat.is_nan (exchangeRate f t) = true ->
      exists pf pt, priceUsd f = Some pf /\ priceUsd t = Some pt
        /\ PrimFloat.is_infinity pf = true /\ PrimFloat.is_infinity pt = true).
Proof.
  unfold exchangeRate. repeat split.
  - intros pf pt -> -> Hf Ht. now rewrite Hf, Ht, (ltb_0_truthy pt Ht).
  - intros H. destruct (priceUsd f) as [pf|], (priceUsd t) as [pt|]; try reflexivity.
    destruct (JS.truthy pf) eqn:Ef; [|reflexivity].
    rewrite (H pf pt eq_refl eq_refl Ef). now rewrite andb_false_r.
  - destruct (priceUsd f) as [pf|], (priceUsd t) as [pt|]; try discriminate.
    destruct (JS.truthy pf) eqn:Ef; [|discriminate].
    destruct (JS.truthy pt); [|discriminate].
    destruct (PrimFloat.ltb 0 pt) eqn:Et; [|discriminate].
    cbn [andb]. intros Hn. exists pf, pt.
    destruct (div_nan_infinite pf pt Ef Et Hn). auto.
Qed.

Lemma exchangeRate_contract_witness :
  exchangeRate token_A token_B = 2000%float.
Proof.
  apply (proj1 (exchangeRate_contract token_A token_B) 2000%float 1%float);
    reflexivity.
Defined.

(** C6 as stated fails: the quotient of two finite positive prices can be
    Infinity, and that of two infinite prices is NaN. *)
Lemma exchangeRate_not_always_finite :
  exchangeRate token_high token_low = infinity
  /\ PrimFloat.is_nan (exchangeRate token_inf token_inf) = true.
Proof. split; vm_compute; reflexivity. Qed.

(** C3, as amended.  For every text and every bound that is a number, the
    validator decides on the text stripped of every character but digits and
    dots and with every dot but the first dropped: [EmptyAmount] if that text
    is empty, [NotANumber] if it parses to NaN, [NonPositive] if the value is
    at most 0, [ExceedsBalance] if it is above the bound, and success with the
    cleaned text otherwise.  With the bound 1000: "0" fails [NonPositive],
    "1000" succeeds, "1000.01" fails [ExceedsBalance], and "12.34.56" is
    validated as "12.3456". *)
Theorem validator_order (raw fromSymbol : string) (maxBalance : float) :
  PrimFloat.is_nan maxBalance = false ->
  let cleaned := first_dot_only (JS.keep_chars allowed raw) in
  plain cleaned = true
  /\ resolve (createSwapSchema maxBalance fromSymbol raw)
     = validator_outcome maxBalance fromSymbol cleaned
  /\ resolve (createSwapSchema MAX_BALANCE "A" "0")
     = inr (message MAX_BALANCE "A" NonPositive)
  /\ resolve (createSwapSchema MAX_BALANCE "A" "1000") = inl "1000"
  /\ resolve (createSwapSchema MAX_BALANCE "A" "1000.01")
     = inr (message MAX_BALANCE "A" ExceedsBalance)
  /\ resolve (createSwapSchema MAX_BALANCE "A" "12.34.56") = inl "12.3456".
Proof.
  intros HM cleaned. subst cleaned. rewrite <- cleanValue_spec.
  split; [apply cleanValue_plain|].
  split; [now apply createSwapSchema_outcome|].
  repeat split; vm_compute; reflexivity.
Qed.

Lemma validator_order_witness :
  resolve (createSwapSchema MAX_BALANCE "A" "1a2.5x.7")
  = validator_outcome MAX_BALANCE "A" "12.57".
Proof.
  exact (proj1 (proj2 (validator_order "1a2.5x.7" "A" MAX_BALANCE eq_refl))).
Defined.

(** C3 as stated fails: a text of 310 digits parses to Infinity, which is
    not a finite number, and the validator reports [ExceedsBalance] for it,
    not [NotANumber]. *)
Lemma validator_infinite_amount :
  PrimFloat.is_finite (JS.parseFloat (cleanValue huge_amount)) = false
  /\ resolve (createSwapSchema MAX_BALANCE "A" huge_amount)
     = inr (message MAX_BALANCE "A" ExceedsBalance)
  /\ claimed_outcome MAX_BALANCE "A" (cleanValue huge_amount)
     = inr (message MAX_BALANCE "A" NotANumber)
  /\ resolve (createSwapSchema MAX_BALANCE "A" huge_amount)
     <> claimed_outcome MAX_BALANCE "A" (cleanValue huge_amount).
Proof. repeat split; vm_compute; (reflexivity || discriminate). Qed.

(** ** The claims about the component, on concrete tables *)

Lemma scenario_mount : mount scenario_data scenario_icons = Some scenario_start.
Proof. vm_compute. reflexivity. Qed.

Lemma scenario_tokens : TOKENS scenario_data scenario_icons = [token_A; token_B].
Proof. vm_compute. reflexivity. Qed.

Lemma scenario_reachable (es : list Event) :
  Forall (valid_event scenario_data scenario_icons) es ->
  reachable scenario_data scenario_icons (run scenario_data scenario_icons scenario_start es).
Proof. apply run_reachable, reach_mount, scenario_mount. Qed.

(** C7.  With A at 2000 and B at 1: the adjusted rate is 1994; typing "10"
    as "from" amount makes "from" the driving field and writes
    "19940.00000000" as "to" amount; typing "19940" as "to" amount then makes
    "to" the driving field and writes "10.00000000" as "from" amount. *)
Theorem concrete_scenario :
  mount scenario_data scenario_icons = Some scenario_start
  /\ (exchangeRate token_A token_B * (1 - SLIPPAGE_RATE))%float = 1994%float
  /\ let s1 := step scenario_data scenario_icons scenario_start (EditFrom "10") in
     lastUpdatedField s1 = Some FromField
     /\ watchedFromAmount s1 = "10"
     /\ watchedToAmount s1 = "19940.00000000"
     /\ let s2 := step scenario_data scenario_icons s1 (EditTo "19940") in
        lastUpdatedField s2 = Some ToField
        /\ watchedToAmount s2 = "19940"
        /\ watchedFromAmount s2 = "10.00000000".
Proof. repeat split; vm_compute; reflexivity. Qed.

(** C4 at its failing input.  After "10" is typed as "from" amount, the
    handler of the reverse button exchanges the tokens and the two texts and
    makes "from" the driving field; the effect of lines 176-188, which the
    change of tokens triggers, then blanks both fields and leaves no driving
    field, so nothing is driven again. *)
Theorem swap_direction_scenario :
  let s1 := step scenario_data scenario_icons scenario_start (EditFrom "10") in
  let h := dispatch SwapDirection s1 in
  let s2 := step scenario_data scenario_icons s1 SwapDirection in
  (watchedFromAmount s1 = "10" /\ watchedToAmount s1 = "19940.00000000")
  /\ (symbol (fromToken h) = "B" /\ symbol (toToken h) = "A"
      /\ watchedFromAmount h = "19940.00000000" /\ watchedToAmount h = "10"
      /\ lastUpdatedField h = Some FromField)
  /\ (symbol (fromToken s2) = "B" /\ symbol (toToken s2) = "A"
      /\ watchedFromAmount s2 = "" /\ watchedToAmount s2 = ""
      /\ lastUpdatedField s2 = None).
Proof. repeat split; vm_compute; reflexivity. Qed.

Lemma tokens_always_differ_witness :
  (2 <= List.length (TOKENS scenario_data scenario_icons))%nat
  /\ reachable scenario_data scenario_icons scenario_start
  /\ symbol (fromToken scenario_start) <> symbol (toToken scenario_start)
  /\ find (fun t => negb (symbol t =? symbol (fromToken scenario_start))%string)
       (TOKENS scenario_data scenario_icons)
     = Some (toToken (step scenario_data scenario_icons scenario_start
                        (SelectTo (fromToken scenario_start)))).
Proof.
  assert (2 <= List.length (TOKENS scenario_data scenario_icons))%nat as Hl
    by (rewrite scenario_tokens; simpl; lia).
  pose proof (reach_mount _ _ _ scenario_mount) as Hs.
  split; [exact Hl|]. split; [exact Hs|].
  destruct (tokens_always_differ scenario_data scenario_icons Hl scenario_start Hs)
    as (H1 & _ & _ & H4).
  split; [exact H1|exact H4].
Defined.

Lemma zero_price_mount :
  exists s, mount zero_price_data scenario_icons = Some s
            /\ priceUsd (toToken s) = Some 0%float.
Proof. eexists. split; vm_compute; reflexivity. Qed.

Lemma unavailable_rate_blanks_witness :
  exists s0, mount zero_price_data scenario_icons = Some s0 /\
  let s := step zero_price_data scenario_icons s0 (EditFrom "5") in
  watchedFromAmount s = "" /\ watchedToAmount s = "" /\ submitDisabled s = true.
Proof.
  destruct zero_price_mount as (s0 & Hm & Hp). exists s0. split; [exact Hm|].
  apply (unavailable_rate_blanks zero_price_data scenario_icons _
           (reach_step _ _ s0 (EditFrom "5") (reach_mount _ _ s0 Hm) I) 0%float).
  - unfold step. rewrite settle_toToken, render_toToken.
    destruct (token_runs _); [|exact Hp].
    rewrite reassigned_distinct; [exact Hp|].
    unfold distinct. cbn [dispatch]. unfold handleInputChange, validateFromAmount.
    destruct (resolve _); cbn [fromToken toToken setLastUpdatedField setError with_form setValue];
      injection Hm as <-; vm_compute; discriminate.
  - reflexivity.
Defined.

Lemma in_flight_exclusive_witness :
  let s := run scenario_data scenario_icons scenario_start [EditFrom "10"; Submit] in
  isSwapping s = true /\ step scenario_data scenario_icons s Submit = s.
Proof.
  intros s. assert (isSwapping s = true) as Hf by (vm_compute; reflexivity).
  assert (reachable scenario_data scenario_icons s) as Hs
    by (apply (scenario_reachable [EditFrom "10"; Submit]); repeat constructor).
  exact (conj Hf (proj1 (in_flight_exclusive scenario_data scenario_icons s Hs Hf))).
Defined.

Lemma settlement_completion_witness :
  let s := step scenario_data scenario_icons scenario_start (EditFrom "10") in
  let s2 := run scenario_data scenario_icons s [Submit; EditFrom "20"; SwapTimer] in
  isSwapping s2 = false
  /\ successMessage s2 = "Swap successful! You received 19940.0000 B".
Proof.
  intros s s2.
  assert (reachable scenario_data scenario_icons s) as Hs
    by (apply (scenario_reachable [EditFrom "10"]); repeat constructor).
  assert (accepted s) as Ha.
  { repeat split; [vm_compute; discriminate|]. eexists. vm_compute. reflexivity. }
  destruct (settlement_completion scenario_data scenario_icons s Hs Ha)
    as (_ & _ & _ & _ & _ & _ & H).
  destruct (H [EditFrom "20"]) as (H1 & _ & _ & _ & H5).
  { intros [E|[]]. discriminate. }
  split; [exact H1|]. subst s2. cbn [run fold_left] in *. rewrite H5.
  vm_compute. reflexivity.
Defined.

(** C9 as stated fails: the value reported is not the "to" amount.  With
    "0.00000001" typed as "from" amount the "to" amount is "0.00001994", at
    submission and until the timer fires, and the message reports "0.0000". *)
Lemma settlement_reports_rounded_amount :
  let s := step scenario_data scenario_icons scenario_start (EditFrom "0.00000001") in
  let s1 := step scenario_data scenario_icons s Submit in
  let s2 := step scenario_data scenario_icons s1 SwapTimer in
  watchedToAmount s = "0.00001994"
  /\ isSwapping s1 = true /\ watchedToAmount s1 = "0.00001994"
  /\ successMessage s2 = "Swap successful! You received 0.0000 B"
  /\ PrimFloat.eqb (JS.parseFloat "0.0000") (JS.parseFloat "0.00001994") = false.
Proof. repeat split; vm_compute; reflexivity. Qed.

Lemma amount_texts_shape_witness :
  let s := step scenario_data scenario_icons scenario_start (EditFrom "10") in
  amount_text (watchedFromAmount s) /\ amount_text (watchedToAmount s).
Proof.
  intros s.
  assert (reachable scenario_data scenario_icons s) as Hs
    by (apply (scenario_reachable [EditFrom "10"]); repeat constructor).
  exact (amount_texts_shape scenario_data scenario_icons s Hs).
Defined.

(** C10 as stated fails: twenty digits typed as "from" amount give the
    derived "to" amount "1.994e+22", which is neither empty nor made of
    digits and dots only. *)
Lemma derived_text_with_exponent :
  let s := step scenario_data scenario_icons scenario_start
             (EditFrom "10000000000000000000") in
  reachable scenario_data scenario_icons s
  /\ watchedToAmount s = "1.994e+22"
  /\ watchedToAmount s <> ""
  /\ plain (watchedToAmount s) = false.
Proof.
  split; [apply (scenario_reachable [EditFrom "10000000000000000000"]); repeat constructor|].
  repeat split; vm_compute; (reflexivity || discriminate).
Qed.
